(** * A shallow embedding of jrtools: flux_densities.py and quick_chart.py

    Python [str] values are modelled as sequences of characters with code
    points below 256 ([ascii] in the Standard Library, read as Latin-1).
    The float arithmetic of [get_jy] is modelled over the reals, with the
    overflow and the underflow of its final [pow]; [_frange] runs on IEEE
    binary64 numbers, the primitive floats of the Standard Library. *)

From Stdlib Require Import Reals Lra Lia ZArith String Ascii List Bool Floats.
Import ListNotations.
Local Set Warnings "-register-all".
Local Set Warnings "-inexact-float".


(** Results of Python code that may raise: a value or an exception. *)
Inductive py_exc : Type :=
| ValueError
| ZeroDivisionError
| OverflowError
| Exception (msg : list ascii).

Inductive pyres (A : Type) : Type :=
| Ok (a : A)
| Raise (e : py_exc).
Arguments Ok {A} a.
Arguments Raise {A} e.

Definition py_bind {A B : Type} (m : pyres A) (k : A -> pyres B) : pyres B :=
  match m with
  | Ok a => k a
  | Raise e => Raise e
  end.

Notation "x <- m ;; k" := (py_bind m (fun x => k))
  (at level 61, m at next level, right associativity).

(** ** Characters and Python string methods *)

Definition code (c : ascii) : nat := nat_of_ascii c.
Definition chr (n : nat) : ascii := ascii_of_nat n.

(** [str.lower] on code points below 256: A-Z and the Latin-1 capitals
    (192..222 except the multiplication sign 215) move down by 32. *)
Definition py_lower_char (c : ascii) : ascii :=
  let n := code c in
  if ((65 <=? n) && (n <=? 90)) || ((192 <=? n) && (n <=? 222) && negb (n =? 215))
  then chr (n + 32) else c.

Fixpoint py_lower (s : string) : string :=
  match s with
  | EmptyString => EmptyString
  | String c s' => String (py_lower_char c) (py_lower s')
  end.

(** * flux_densities.py *)
Module Flux.
Open Scope R_scope.

(** One row of [_COEFF_TABLE] and the [SourceCoeffs] namedtuple built from it:
    [name a0 a1 a2 a3 a4 a5 fit fmin fmax]. *)
Record SourceCoeffs : Type := mkSourceCoeffs {
  name : string;
  a0 : R; a1 : R; a2 : R; a3 : R; a4 : R; a5 : R;
  fit : R; fmin : R; fmax : R
}.

Definition _COEFF_TABLE : list SourceCoeffs := [
  mkSourceCoeffs "J0133-3629" 1.0440 (-0.6620) (-0.225) 0.0 0.0 0.0 267.0 0.20 4;
  mkSourceCoeffs "3C48" 1.3253 (-0.7553) (-0.1914) 0.0498 0.0 0.0 3.1 0.05 50;
  mkSourceCoeffs "Fornax A" 2.2180 (-0.661) 0.0 0.0 0.0 0.0 17.0 0.20 0.5;
  mkSourceCoeffs "3C123" 1.8017 (-0.7884) (-0.1035) (-0.0248) 0.009 0.0 1.9 0.05 50;
  mkSourceCoeffs "J0444-2809" 0.9710 (-0.8940) (-0.118) 0.0 0.0 0.0 3.3 0.20 2.0;
  mkSourceCoeffs "3C138" 1.0088 (-0.4981) (-0.155) (-0.0100) 0.0220 0.0 1.5 0.20 50;
  mkSourceCoeffs "Pictor A" 1.9380 (-0.7470) (-0.074) 0.0 0.0 0.0 8.1 0.20 4.0;
  mkSourceCoeffs "Taurus A" 2.9516 (-0.217) (-0.047) (-0.067) 0.0 0.0 1.9 0.05 4.0;
  mkSourceCoeffs "3C147" 1.4516 (-0.6961) (-0.201) 0.064 (-0.046) 0.029 2.2 0.05 50;
  mkSourceCoeffs "3C196" 1.2872 (-0.8530) (-0.153) (-0.0200) 0.0201 0.0 1.6 0.05 50;
  mkSourceCoeffs "Hydra A" 1.7795 (-0.9176) (-0.084) (-0.0139) 0.03 0.0 3.5 0.05 12;
  mkSourceCoeffs "Virgo A" 2.4466 (-0.8116) (-0.048) 0.0 0.0 0.0 2.0 0.05 3;
  mkSourceCoeffs "3C286" 1.2481 (-0.4507) (-0.1798) 0.0357 0.0 0.0 1.9 0.05 50;
  mkSourceCoeffs "3C295" 1.4701 (-0.7658) (-0.278) (-0.0347) 0.0399 0.0 1.6 0.05 50;
  mkSourceCoeffs "Hercules A" 1.8298 (-1.0247) (-0.0951) 0.0 0.0 0.0 2.3 0.20 12;
  mkSourceCoeffs "3C353" 1.8627 (-0.6938) (-0.100) (-0.0320) 0.0 0.0 2.2 0.20 4;
  mkSourceCoeffs "3C380" 1.2320 (-0.7910) 0.095 0.0980 (-0.18) (-0.16) 2.9 0.05 50;
  mkSourceCoeffs "Cygnus A" 3.3498 (-1.0022) (-0.225) 0.023 0.043 0.0 1.9 0.05 12;
  mkSourceCoeffs "3C444" 1.1064 (-1.0050) (-0.075) (-0.0770) 0.0 0.0 5.7 0.20 12;
  mkSourceCoeffs "Cassiopeia A" 3.3584 (-0.7518) (-0.035) (-0.071) 0.0 0.0 2.1 0.2 4
].

(** [get_sources]: the names, in table order. *)
Definition get_sources : list string :=
  fold_left (fun sources coeffs => sources ++ [name coeffs]) _COEFF_TABLE [].

(** [get_source_coeffs]: first row whose lower-cased name equals the
    lower-cased argument. *)
Fixpoint find_coeffs (table : list SourceCoeffs) (source_name : string)
  : option SourceCoeffs :=
  match table with
  | [] => None
  | coeffs :: rest =>
      if String.eqb (py_lower (name coeffs)) (py_lower source_name)
      then Some coeffs else find_coeffs rest source_name
  end.

Definition get_source_coeffs (source_name : string) : option SourceCoeffs :=
  find_coeffs _COEFF_TABLE source_name.

(** [math.log(x, base)]: a ValueError for a non-positive argument or base,
    a ZeroDivisionError for base 1, otherwise [ln x / ln base]. *)
Definition math_log (x base : R) : pyres R :=
  if Rle_dec x 0 then Raise ValueError
  else if Rle_dec base 0 then Raise ValueError
  else if Req_EM_T base 1 then Raise ZeroDivisionError
  else Ok (ln x / ln base).

(** [pow(v, k)] for an integral float exponent [k]. *)
Definition pow_int (v : R) (k : nat) : R := v ^ k.

(** Python floats are IEEE binary64 numbers. The largest finite one is
    [(2 - 2^-52) * 2^1023]: a result at or above [2^1024 - 2^970] rounds
    to infinity. A positive result at or below [2^-1075], half the smallest
    subnormal, rounds to [0.0]. *)
Definition float_overflow : R := 2 ^ 1024 - 2 ^ 970.
Definition float_underflow : R := / 2 ^ 1075.

(** [pow(10.0, p)] (CPython's [float_pow] over the C library's [pow]): a
    result that rounds to infinity raises OverflowError; one that rounds to
    zero is returned as [0.0], CPython clearing the underflow; otherwise
    the power, whose rounding to the nearest float is not modelled. *)
Definition pow10 (p : R) : pyres R :=
  let v := Rpower 10 p in
  if Rle_dec float_overflow v then Raise OverflowError
  else if Rle_dec v float_underflow then Ok 0
  else Ok v.

(** [get_jy]: [None] for an unknown source; otherwise the six-term
    polynomial in [log(freq_ghz, 10)], evaluated left to right, then
    [pow(10.0, jy_pre)]. *)
Definition get_jy (source : string) (freq_ghz : R) : pyres (option R) :=
  match get_source_coeffs source with
  | None => Ok None
  | Some coeffs =>
      l1 <- math_log freq_ghz 10 ;;
      l2 <- math_log freq_ghz 10 ;;
      l3 <- math_log freq_ghz 10 ;;
      l4 <- math_log freq_ghz 10 ;;
      l5 <- math_log freq_ghz 10 ;;
      let jy_pre := a0 coeffs + a1 coeffs * l1 + a2 coeffs * pow_int l2 2
                    + a3 coeffs * pow_int l3 3 + a4 coeffs * pow_int l4 4
                    + a5 coeffs * pow_int l5 5 in
      flux <- pow10 jy_pre ;;
      Ok (Some flux)
  end.

End Flux.

(** * quick_chart.py *)
Module QuickChart.

Definition text := list ascii.
Definition s2l (s : string) : text := list_ascii_of_string s.

Definition dq : ascii := chr 34.
Definition bsl : ascii := chr 92.
Definition nlc : ascii := chr 10.
Definition spc : ascii := chr 32.

(** Literal text: in [lit s] a backquote of [s] stands for a double quote
    and a vertical bar for a newline. *)
Definition lit (s : string) : text :=
  map (fun c => if ascii_dec c (chr 96) then dq
                else if ascii_dec c (chr 124) then nlc else c) (s2l s).

Definition text_eqb (a b : text) : bool :=
  if list_eq_dec ascii_dec a b then true else false.

(** ** JSON values and [json.dumps(obj, indent=2)] *)

Inductive json : Type :=
| JNull
| JBool (b : bool)
| JInt (z : Z)
| JStr (s : text)
| JArr (l : list json)
| JObj (kvs : list (text * json)).

(** [int.__repr__]. *)
Definition digit_char (d : Z) : ascii := chr (48 + Z.to_nat d).

Fixpoint pos_digits (fuel : nat) (n : Z) (acc : text) : text :=
  match fuel with
  | O => acc
  | S f =>
      let acc' := digit_char (n mod 10) :: acc in
      if (n <? 10)%Z then acc' else pos_digits f (n / 10)%Z acc'
  end.

Definition py_int_repr (z : Z) : text :=
  match z with
  | Z0 => s2l "0"
  | Zpos p => pos_digits (Pos.size_nat p) z []
  | Zneg p => chr 45 :: pos_digits (Pos.size_nat p) (Zpos p) []
  end.

(** [py_encode_basestring_ascii]: backslash and double quote are escaped,
    printable ASCII is kept, the named control escapes are used, every other
    code point becomes [\u] and four lower-case hex digits. *)
Definition hex_digit (n : nat) : ascii :=
  if n <? 10 then chr (48 + n) else chr (87 + n).

Definition esc_char (c : ascii) : text :=
  let n := code c in
  if n =? 92 then [bsl; bsl]
  else if n =? 34 then [bsl; dq]
  else if (32 <=? n) && (n <=? 126) then [c]
  else if n =? 8 then [bsl; chr 98]
  else if n =? 12 then [bsl; chr 102]
  else if n =? 10 then [bsl; chr 110]
  else if n =? 13 then [bsl; chr 114]
  else if n =? 9 then [bsl; chr 116]
  else [bsl; chr 117; hex_digit (n / 4096 mod 16); hex_digit (n / 256 mod 16);
        hex_digit (n / 16 mod 16); hex_digit (n mod 16)].

Definition encode_str (s : text) : text := dq :: flat_map esc_char s ++ [dq].

(** Newline followed by the indentation of a nesting level ([indent=2]). *)
Definition nl (lvl : nat) : text := nlc :: repeat spc (2 * lvl).

(** [json.dumps] with [indent=2]: item separator [","], key separator
    [": "], empty containers as [[]] and [{}]. *)
Fixpoint dumps (lvl : nat) (j : json) : text :=
  match j with
  | JNull => s2l "null"
  | JBool true => s2l "true"
  | JBool false => s2l "false"
  | JInt z => py_int_repr z
  | JStr s => encode_str s
  | JArr [] => s2l "[]"
  | JArr (x :: xs) =>
      chr 91 :: nl (S lvl) ++ dumps (S lvl) x ++
      (fix items (ys : list json) : text :=
         match ys with
         | [] => []
         | y :: ys' => chr 44 :: nl (S lvl) ++ dumps (S lvl) y ++ items ys'
         end) xs
      ++ nl lvl ++ [chr 93]
  | JObj [] => s2l "{}"
  | JObj ((k, v) :: kvs) =>
      chr 123 :: nl (S lvl) ++ encode_str k ++ s2l ": " ++ dumps (S lvl) v ++
      (fix members (ms : list (text * json)) : text :=
         match ms with
         | [] => []
         | (k', v') :: ms' =>
             chr 44 :: nl (S lvl) ++ encode_str k' ++ s2l ": "
               ++ dumps (S lvl) v' ++ members ms'
         end) kvs
      ++ nl lvl ++ [chr 125]
  end.

(** ** Python dicts (insertion ordered) *)

Definition dict := list (text * json).

Fixpoint dict_get (k : text) (d : dict) : option json :=
  match d with
  | [] => None
  | (k', v) :: d' => if text_eqb k k' then Some v else dict_get k d'
  end.

Definition dict_has (k : text) (d : dict) : bool :=
  match dict_get k d with Some _ => true | None => false end.

(** [d[k] = v]: an existing key keeps its position. *)
Fixpoint dict_set (k : text) (v : json) (d : dict) : dict :=
  match d with
  | [] => [(k, v)]
  | (k', v') :: d' =>
      if text_eqb k k' then (k', v) :: d' else (k', v') :: dict_set k v d'
  end.

(** [d.pop(k, None)]. *)
Fixpoint dict_pop (k : text) (d : dict) : dict :=
  match d with
  | [] => []
  | (k', v') :: d' => if text_eqb k k' then d' else (k', v') :: dict_pop k d'
  end.

(** ** [str.replace(old, new)]: leftmost, non-overlapping occurrences. *)

Fixpoint prefixb (p s : text) : bool :=
  match p, s with
  | [], _ => true
  | a :: p', b :: s' => (if ascii_dec a b then true else false) && prefixb p' s'
  | _ :: _, [] => false
  end.

(** The scan: at a match, emit [new] and skip the rest of [old]. *)
Fixpoint replace_from (old new : text) (skip : nat) (s : text) : text :=
  match s with
  | [] => []
  | c :: s' =>
      match skip with
      | S k => replace_from old new k s'
      | O => if prefixb old s then new ++ replace_from old new (pred (length old)) s'
             else c :: replace_from old new 0 s'
      end
  end.

(** An empty [old] inserts [new] around every character. *)
Fixpoint interleave (new s : text) : text :=
  match s with
  | [] => new
  | c :: s' => new ++ c :: interleave new s'
  end.

Definition py_replace (s old new : text) : text :=
  match old with
  | [] => interleave new s
  | _ => replace_from old new 0 s
  end.

(** [str.split('\n')]. *)
Fixpoint split_lines_aux (cur : text) (s : text) : list text :=
  match s with
  | [] => [rev cur]
  | c :: s' =>
      if ascii_dec c nlc then rev cur :: split_lines_aux [] s'
      else split_lines_aux (c :: cur) s'
  end.
Definition split_lines (s : text) : list text := split_lines_aux [] s.

(** [str.isdigit] on code points below 256: 0-9 and the superscripts
    two, three and one. *)
Definition py_isdigit (c : ascii) : bool :=
  let n := code c in
  ((48 <=? n) && (n <=? 57)) || (n =? 178) || (n =? 179) || (n =? 185).

(** ** Series *)

(** Numbers of a data point, printed by [repr]; a float is kept as its
    [repr] text. *)
Inductive pynum : Type :=
| PyInt (z : Z)
| PyFloat (repr : text).

Definition pynum_repr (x : pynum) : text :=
  match x with PyInt z => py_int_repr z | PyFloat r => r end.

Fixpoint join (sep : text) (l : list text) : text :=
  match l with
  | [] => []
  | [x] => x
  | x :: l' => x ++ sep ++ join sep l'
  end.

(** [str(list)]: elements by [repr], separated by [", "]. *)
Definition py_str_list {A} (repr : A -> text) (l : list A) : text :=
  chr 91 :: join (s2l ", ") (map repr l) ++ [chr 93].

(** The fields of [self._series] (keys [name], [data], then [marker] when
    given to the constructor, then [type] once [set_series_type] ran) and
    [self._data]. *)
Record Series : Type := mkSeries {
  sr_name : text;
  sr_marker : option json;
  sr_type : option json;
  sr_data : list (list pynum)
}.

Definition replace_space (s : text) : text :=
  map (fun c => if ascii_dec c spc then chr 95 else c) s.

(** ['%s_placeholder' % name.replace(' ', '_')]. *)
Definition placeholder (name : text) : text :=
  replace_space name ++ s2l "_placeholder".

(** [Series.__init__]. *)
Definition new_series (name : text) (data : list (list pynum)) (marker : json)
  : Series :=
  mkSeries name (match marker with JNull => None | m => Some m end) None data.

Definition get_name (s : Series) : text := sr_name s.

(** The [series] property: the dict [self._series]. *)
Definition series (s : Series) : dict :=
  [(s2l "name", JStr (sr_name s)); (s2l "data", JStr (placeholder (sr_name s)))]
  ++ match sr_marker s with Some m => [(s2l "marker", m)] | None => [] end
  ++ match sr_type s with Some t => [(s2l "type", t)] | None => [] end.

Definition set_series_type (s : Series) (series_type : json) : Series :=
  mkSeries (sr_name s) (sr_marker s) (Some series_type) (sr_data s).

Definition get_data_as_str (s : Series) : text :=
  py_str_list (py_str_list pynum_repr) (sr_data s).

(** [javascript_var_name]: ['%s_data'], with a leading underscore when the
    first character is a digit. *)
Definition javascript_var_name (s : Series) : text :=
  let var_name := replace_space (sr_name s) ++ s2l "_data" in
  match var_name with
  | c :: _ => if py_isdigit c then chr 95 :: var_name else var_name
  | [] => var_name
  end.

Definition to_javascript_var (s : Series) : text :=
  s2l "var " ++ javascript_var_name s ++ s2l " = " ++ get_data_as_str s ++ s2l ";".

Definition get_js_var_definitions (list_of_series : list Series) : list text :=
  map to_javascript_var list_of_series.

(** The quoted placeholder searched by [data_placeholder_replace]. *)
Definition quoted_placeholder (s : Series) : text :=
  dq :: placeholder (get_name s) ++ [dq].

Definition data_placeholder_replace (json_string : text) (list_of_series : list Series)
  : text :=
  fold_left (fun js s => py_replace js (quoted_placeholder s) (javascript_var_name s))
    list_of_series json_string.

(** ** Chart *)

(** [self._chart] (a dict), [self._series_instances_list], width, height.
    The dict holds, under ["series"], the dicts of the added series as they
    were when added. *)
Record Chart : Type := mkChart {
  ch_chart : dict;
  ch_series_instances : list Series;
  ch_width : Z;
  ch_height : Z
}.

Definition with_dict (c : Chart) (d : dict) : Chart :=
  mkChart d (ch_series_instances c) (ch_width c) (ch_height c).

Definition set_width (c : Chart) (w : Z) : Chart :=
  mkChart (ch_chart c) (ch_series_instances c) w (ch_height c).
Definition set_height (c : Chart) (h : Z) : Chart :=
  mkChart (ch_chart c) (ch_series_instances c) (ch_width c) h.

(** [set_chart]: on [None] the key is popped, and then set again (there is
    no [return] after the pop). *)
Definition set_chart (c : Chart) (chart_type zoom_type : json) : Chart :=
  let d := match chart_type with
           | JNull => dict_pop (s2l "chart") (ch_chart c)
           | _ => ch_chart c end in
  with_dict c (dict_set (s2l "chart")
                 (JObj [(s2l "type", chart_type); (s2l "zoomType", zoom_type)]) d).

Definition set_credits (c : Chart) (txt href : json) : Chart :=
  with_dict c (dict_set (s2l "credits")
                 (JObj [(s2l "text", txt); (s2l "href", href)]) (ch_chart c)).

Definition set_title (c : Chart) (title : json) : Chart :=
  with_dict c (dict_set (s2l "title") (JObj [(s2l "text", title)]) (ch_chart c)).

Definition set_subtitle (c : Chart) (subtitle : json) : Chart :=
  match subtitle with
  | JNull => with_dict c (dict_pop (s2l "subtitle") (ch_chart c))
  | _ => with_dict c (dict_set (s2l "subtitle") (JObj [(s2l "text", subtitle)]) (ch_chart c))
  end.

Definition axis (axis_type txt : json) : json :=
  JObj [(s2l "type", axis_type); (s2l "title", JObj [(s2l "text", txt)])].

Definition set_xaxis (c : Chart) (axis_type txt : json) : Chart :=
  with_dict c (dict_set (s2l "xAxis") (axis axis_type txt) (ch_chart c)).

Definition set_yaxis (c : Chart) (axis_type txt : json) : Chart :=
  with_dict c (dict_set (s2l "yAxis") (axis axis_type txt) (ch_chart c)).

Definition set_tooltip (c : Chart) (tooltip_dict : json) : Chart :=
  match tooltip_dict with
  | JNull => with_dict c (dict_pop (s2l "tooltip") (ch_chart c))
  | _ => with_dict c (dict_set (s2l "tooltip") tooltip_dict (ch_chart c))
  end.

Definition set_plot_options (c : Chart) (plot_options_dict : json) : Chart :=
  match plot_options_dict with
  | JNull => with_dict c (dict_pop (s2l "plotOptions") (ch_chart c))
  | _ => with_dict c (dict_set (s2l "plotOptions") plot_options_dict (ch_chart c))
  end.

Definition _set_defaults (c : Chart) : Chart :=
  let c := set_credits c (JStr (s2l "jrtools")) (JStr (s2l "http://github.com/jrseti/jrtools")) in
  let c := set_chart c (JStr (s2l "line")) (JStr (s2l "x")) in
  let c := set_title c (JStr (s2l "Chart Title")) in
  let c := set_subtitle c JNull in
  let c := set_xaxis c (JStr (s2l "linear")) (JStr (s2l "Need to set X axis text")) in
  let c := set_yaxis c (JStr (s2l "linear")) (JStr (s2l "Need to set Y axis text")) in
  let c := set_tooltip c JNull in
  set_plot_options c JNull.

(** [Chart.__init__]. *)
Definition new_chart : Chart :=
  let c := _set_defaults (mkChart [] [] 800 400) in
  mkChart (ch_chart c) (ch_series_instances c) 800 400.

Definition add_series (c : Chart) (s : Series) : Chart :=
  let series_list := match dict_get (s2l "series") (ch_chart c) with
                     | Some (JArr l) => l | _ => [] end in
  mkChart (dict_set (s2l "series") (JArr (series_list ++ [JObj (series s)])) (ch_chart c))
          (ch_series_instances c ++ [s]) (ch_width c) (ch_height c).

Definition no_series_msg : text :=
  s2l "The series has not been defined. Cannot create a valid chart.".

Definition to_json_string (c : Chart) : pyres text :=
  if dict_has (s2l "series") (ch_chart c) then
    let json_string := dumps 0 (JObj (ch_chart c)) in
    Ok (data_placeholder_replace json_string (ch_series_instances c))
  else Raise (Exception no_series_msg).

Definition get_series_js_var_statements (c : Chart) : pyres (list text) :=
  if dict_has (s2l "series") (ch_chart c) then
    Ok (get_js_var_definitions (ch_series_instances c))
  else Raise (Exception no_series_msg).

(** ** Page *)

Record Page : Type := mkPage {
  pg_title_text : option text;
  pg_charts : list Chart
}.

Definition new_page (title_text : option text) : Page := mkPage title_text [].

Definition add_chart (p : Page) (c : Chart) : Page :=
  mkPage (pg_title_text p) (pg_charts p ++ [c]).

Definition _indent (num_spaces : nat) (t : text) : text := repeat spc num_spaces ++ t.

Definition _get_header_text (p : Page) : text :=
  lit "<!DOCTYPE html>|<html>|<head>|"
  ++ lit "<script src=`http://ajax.googleapis.com/ajax/libs/jquery/1.8.2/jquery.min.js`></script>|"
  ++ lit "<script src=`http://code.highcharts.com/highcharts.js`></script>|"
  ++ lit "</head>|<body>|"
  ++ match pg_title_text p with
     | Some t => lit "<h1 style=`text-align:center;`>" ++ t ++ lit "</h1>|"
     | None => []
     end.

(** [_get_footer_text]: the second assignment overwrites the first. *)
Definition _get_footer_text : text := lit "</html>".

Definition container_div (index : nat) (c : Chart) : text :=
  lit "  <div id=`container" ++ py_int_repr (Z.of_nat index)
  ++ lit "` style=`display:block;margin-left:auto;margin-right: auto; width:"
  ++ py_int_repr (ch_width c) ++ lit "px;height:" ++ py_int_repr (ch_height c)
  ++ lit "px;`></div>|".

(** The text emitted for the charts from index [index] on; the first
    exception raised stops [to_html]. *)
Fixpoint charts_html (index : nat) (charts : list Chart) : pyres text :=
  match charts with
  | [] => Ok []
  | chart :: rest =>
      var_lines <- get_series_js_var_statements chart ;;
      json_string <- to_json_string chart ;;
      rest_html <- charts_html (S index) rest ;;
      Ok (container_div index chart
          ++ _indent 2 (lit "<script>|")
          ++ _indent 4 (lit "$(function () {|")
          ++ concat (map (fun var_line => _indent 6 var_line ++ [nlc]) var_lines)
          ++ _indent 6 (lit "$(`#container" ++ py_int_repr (Z.of_nat index)
                        ++ lit "`).highcharts(|")
          ++ concat (map (fun line => _indent 8 line ++ [nlc]) (split_lines json_string))
          ++ _indent 4 (lit ");|")
          ++ _indent 4 (lit "});|")
          ++ _indent 2 (lit "</script>|")
          ++ rest_html)
  end.

Definition to_html (p : Page) : pyres text :=
  body <- charts_html 0 (pg_charts p) ;;
  Ok (_get_header_text p ++ body ++ _get_footer_text).

(** Charts built through the public methods. *)
Inductive reachable : Chart -> Prop :=
| reach_new : reachable new_chart
| reach_width c w : reachable c -> reachable (set_width c w)
| reach_height c h : reachable c -> reachable (set_height c h)
| reach_chart c t z : reachable c -> reachable (set_chart c t z)
| reach_credits c t h : reachable c -> reachable (set_credits c t h)
| reach_title c t : reachable c -> reachable (set_title c t)
| reach_subtitle c t : reachable c -> reachable (set_subtitle c t)
| reach_xaxis c t x : reachable c -> reachable (set_xaxis c t x)
| reach_yaxis c t y : reachable c -> reachable (set_yaxis c t y)
| reach_tooltip c d : reachable c -> reachable (set_tooltip c d)
| reach_plot_options c d : reachable c -> reachable (set_plot_options c d)
| reach_add c s : reachable c -> reachable (add_series c s).

End QuickChart.

(** * Text-level notions used to reason about the serialized chart *)
Module JsonText.
Import QuickChart.

Definition colon : ascii := chr 58.

(** Characters that are neither a double quote, a backslash, a space nor a
    newline. *)
Definition clean (c : ascii) : bool :=
  negb (Ascii.eqb c dq || Ascii.eqb c bsl || Ascii.eqb c spc || Ascii.eqb c nlc).

(** Characters that [json.dumps] writes unchanged inside a string. *)
Definition verbatim (c : ascii) : bool :=
  (32 <=? code c) && (code c <=? 126) && negb (Ascii.eqb c dq) && negb (Ascii.eqb c bsl).

Definition infix (s t : text) : Prop := exists A B, t = A ++ s ++ B.

Fixpoint infixb (s t : text) : bool :=
  prefixb s t || match t with [] => false | _ :: t' => infixb s t' end.

(** No double quote, clean run, double quote, clean run, double quote. *)
Definition quote_sound (t : text) : Prop :=
  forall A B x y, Forall (fun c => clean c = true) x -> Forall (fun c => clean c = true) y ->
    t <> A ++ dq :: x ++ dq :: y ++ dq :: B.

(** A scanner for the lexical structure of [json.dumps] output: outside a
    string after a separator ([OutSep]), outside a string right after a
    closing quote with no space or newline since ([OutTight]), inside a
    string, after a backslash inside a string, and the error state. *)
Inductive lexst : Type := OutSep | OutTight | InStr | InEsc | Bad.

Definition lex_step (st : lexst) (c : ascii) : lexst :=
  match st with
  | OutSep => if Ascii.eqb c dq then InStr else OutSep
  | OutTight => if Ascii.eqb c dq then Bad else if clean c then OutTight else OutSep
  | InStr => if Ascii.eqb c dq then OutTight else if Ascii.eqb c bsl then InEsc else InStr
  | InEsc => InStr
  | Bad => Bad
  end.

Definition lex_run (st : lexst) (t : text) : lexst := fold_left lex_step t st.

(** The series names the substitution is sound for. *)
Definition good_series (s : Series) : bool := forallb verbatim (sr_name s).

(** The pieces [json.dumps] writes after the first member of an object or
    the first item of an array. *)
Definition member_text (lvl : nat) (kv : text * json) : text :=
  let (k, v) := kv in chr 44 :: nl (S lvl) ++ encode_str k ++ s2l ": " ++ dumps (S lvl) v.

Definition item_text (lvl : nat) (y : json) : text :=
  chr 44 :: nl (S lvl) ++ dumps (S lvl) y.

(** Induction over JSON values, through the lists they hold. *)
Fixpoint json_ind2 (P : json -> Prop)
  (HN : P JNull) (HB : forall b, P (JBool b)) (HI : forall z, P (JInt z))
  (HS : forall s, P (JStr s))
  (HA : forall l, Forall P l -> P (JArr l))
  (HO : forall kvs, Forall (fun kv => P (snd kv)) kvs -> P (JObj kvs))
  (j : json) : P j :=
  match j with
  | JNull => HN
  | JBool b => HB b
  | JInt z => HI z
  | JStr s => HS s
  | JArr l =>
      HA l ((fix go (l : list json) : Forall P l :=
               match l with
               | [] => Forall_nil P
               | x :: l' => Forall_cons x (json_ind2 P HN HB HI HS HA HO x) (go l')
               end) l)
  | JObj kvs =>
      HO kvs ((fix go (kvs : list (text * json)) : Forall (fun kv => P (snd kv)) kvs :=
                 match kvs with
                 | [] => Forall_nil _
                 | kv :: kvs' =>
                     Forall_cons kv (json_ind2 P HN HB HI HS HA HO (snd kv)) (go kvs')
                 end) kvs)
  end.

(** [: w] stands in the text: a key separator followed by [w]. *)
Definition field_at (w T : text) : Prop := exists A B, T = A ++ colon :: spc :: w ++ B.

(** A series whose substitution is done: its variable stands bare after a
    key separator, and its quoted placeholder is gone. *)
Definition settled (s : Series) (T : text) : Prop :=
  field_at (javascript_var_name s) T /\ ~ infix (quoted_placeholder s) T.

(** What a chart holds under ["series"] once the given series are added. *)
Definition series_entry (l : list Series) : option json :=
  match l with
  | [] => None
  | _ => Some (JArr (map (fun s => JObj (series s)) l))
  end.

(** A series whose substitution is pending or done. *)
Definition placed (s : Series) (T : text) : Prop :=
  field_at (quoted_placeholder s) T \/ settled s T.

End JsonText.

(** * The application layer of flux_densities.py: [_frange], [create_chart]
    and [main] *)
Module FluxApp.
Import Flux QuickChart.
Open Scope R_scope.

(** Exceptions raised at this layer: those of the code above, [TypeError]
    (formatting [None] as a float, calling a constructor with the wrong
    number of arguments) and [IndexError]. *)
Inductive app_exc : Type :=
| PyErr (e : py_exc)
| TypeError
| IndexError.

Inductive appres (A : Type) : Type :=
| AOk (a : A)
| ARaise (e : app_exc).
Arguments AOk {A} a.
Arguments ARaise {A} e.

Definition app_bind {A B : Type} (m : appres A) (k : A -> appres B) : appres B :=
  match m with
  | AOk a => k a
  | ARaise e => ARaise e
  end.

Definition lift {A : Type} (m : pyres A) : appres A :=
  match m with
  | Ok a => AOk a
  | Raise e => ARaise (PyErr e)
  end.

(** [_frange(start, stop, step)] on Python floats (IEEE binary64): the
    generator yields [value] while [value <= stop], then [value += step].
    [_frange start stop step l] holds when the generator stops after
    yielding exactly [l]. *)
Inductive _frange : float -> float -> float -> list float -> Prop :=
| frange_stop value stop step :
    (value <=? stop)%float = false -> _frange value stop step []
| frange_yield value stop step l :
    (value <=? stop)%float = true -> _frange (value + step)%float stop step l ->
    _frange value stop step (value :: l).

(** The real number a finite float stands for: [(-1)^s * m * 2^e];
    [None] for an infinity or a NaN. *)
Definition float_value (x : float) : option R :=
  match Prim2SF x with
  | S754_zero _ => Some 0
  | S754_finite s m e => Some ((if s then -1 else 1) * IZR (Zpos m) * powerRZ 2 e)
  | _ => None
  end.

(** [freqs] lists the real values of the finite floats [fl]. *)
Definition frange_values (fl : list float) (freqs : list R) : Prop :=
  Forall2 (fun x r => float_value x = Some r) fl freqs.


Section CreateChart.

(** [float('%.4f' % x)] and [float('%.7f' % x)]: the data values written
    for [x]. The decimal formatting of floats is left abstract. *)
Variable float_fmt : nat -> R -> pynum.

(** One data point [[float('%.4f'%freq), float('%.7f'%(get_jy(...)))]]:
    formatting the [None] of an unknown source raises [TypeError]. *)
Definition freq_flux (source : string) (freq : R) : appres (list pynum) :=
  let x := float_fmt 4 freq in
  app_bind (lift (get_jy source freq)) (fun jy =>
  match jy with
  | None => ARaise TypeError
  | Some v => AOk [x; float_fmt 7 v]
  end).

(** The inner loop of [create_chart] over the frequencies [freqs]
    yielded by [_frange(minx, maxx, 0.01)], as real numbers. *)
Fixpoint source_data (source : string) (freqs : list R) : appres (list (list pynum)) :=
  match freqs with
  | [] => AOk []
  | freq :: rest =>
      app_bind (freq_flux source freq) (fun freq_flux =>
      app_bind (source_data source rest) (fun sd => AOk (freq_flux :: sd)))
  end.

(** The outer loop: [data], the pairs [(source, source_data)]. *)
Fixpoint sources_data (sources : list string) (freqs : list R)
  : appres (list (string * list (list pynum))) :=
  match sources with
  | [] => AOk []
  | source :: rest =>
      app_bind (source_data source freqs) (fun sd =>
      app_bind (sources_data rest freqs) (fun data => AOk ((source, sd) :: data)))
  end.

Definition subtitle_text : text :=
  s2l "Based on Perley and Butler, 2016: https://arxiv.org/pdf/1609.05940.pdf".

Definition tooltip_single : json :=
  JObj [(s2l "crosshairs", JStr (s2l "true")); (s2l "shared", JStr (s2l "true"));
        (s2l "headerFormat", JStr (s2l "{point.x:.3f} GHz<br>"));
        (s2l "pointFormat", JStr (s2l "{point.y:.1f} Jy<br>"))].

Definition tooltip_multiple : json :=
  JObj [(s2l "crosshairs", JStr (s2l "true")); (s2l "shared", JStr (s2l "true"));
        (s2l "headerFormat",
         JStr (s2l "<b>[Multiple Sources] {point.key:.2f}</b> GHz: <br>"));
        (s2l "pointFormat", JStr (s2l "<b>{series.name}:</b> {point.y:.1f} Jy<br>"))].

Definition marker : json :=
  JObj [(s2l "marker", JObj [(s2l "symbol", JStr (s2l "circle")); (s2l "radius", JInt 0%Z)])].

(** [create_chart(sources, minx, maxx, y_axis_linear)], given the values
    [freqs] of the finite floats that [_frange(minx, maxx, 0.01)] yields
    ([frange_values]). *)
Definition create_chart (freqs : list R) (sources : list string) (y_axis_linear : bool)
  : appres Chart :=
  app_bind (sources_data sources freqs) (fun data =>
  let chart := new_chart in
  let chart := match sources with
               | [s] => set_title chart (JStr (s2l s))
               | _ => set_title chart (JStr (s2l "Multiple Sources"))
               end in
  let chart := set_subtitle chart (JStr subtitle_text) in
  let chart := set_xaxis chart (JStr (s2l "logarithmic")) (JStr (s2l "Frequency in GHz")) in
  let chart := if y_axis_linear
               then set_yaxis chart (JStr (s2l "linear")) (JStr (s2l "Jy"))
               else set_yaxis chart (JStr (s2l "logarithmic")) (JStr (s2l "Jy")) in
  let chart := match sources with
               | [_] => set_tooltip chart tooltip_single
               | _ => set_tooltip chart tooltip_multiple
               end in
  let chart := set_width chart 800%Z in
  let chart := set_height chart 500%Z in
  AOk (fold_left (fun chart source_data =>
                    add_series chart (new_series (s2l (fst source_data)) (snd source_data) marker))
                 data chart)).

(** The chart [create_chart] configures before adding the series, and the
    loop adding them: [create_chart] is [configured] followed by [add_data]. *)
Definition configured (sources : list string) (y_axis_linear : bool) : Chart :=
  let chart := new_chart in
  let chart := match sources with
               | [s] => set_title chart (JStr (s2l s))
               | _ => set_title chart (JStr (s2l "Multiple Sources"))
               end in
  let chart := set_subtitle chart (JStr subtitle_text) in
  let chart := set_xaxis chart (JStr (s2l "logarithmic")) (JStr (s2l "Frequency in GHz")) in
  let chart := if y_axis_linear
               then set_yaxis chart (JStr (s2l "linear")) (JStr (s2l "Jy"))
               else set_yaxis chart (JStr (s2l "logarithmic")) (JStr (s2l "Jy")) in
  let chart := match sources with
               | [_] => set_tooltip chart tooltip_single
               | _ => set_tooltip chart tooltip_multiple
               end in
  set_height (set_width chart 800%Z) 500%Z.

Definition add_data (chart : Chart) (data : list (string * list (list pynum))) : Chart :=
  fold_left (fun chart source_data =>
               add_series chart (new_series (s2l (fst source_data)) (snd source_data) marker))
            data chart.

(** ** [main] *)

(** [str.join] and [str.split] with a one-character separator. *)
Fixpoint py_join (sep : string) (l : list string) : string :=
  match l with
  | [] => EmptyString
  | [x] => x
  | x :: l' => (x ++ sep ++ py_join sep l')%string
  end.

Fixpoint py_split_aux (sep : ascii) (cur s : string) : list string :=
  match s with
  | EmptyString => [cur]
  | String c s' =>
      if Ascii.eqb c sep then cur :: py_split_aux sep EmptyString s'
      else py_split_aux sep (cur ++ String c EmptyString)%string s'
  end.

Definition py_split (sep : ascii) (s : string) : list string := py_split_aux sep EmptyString s.

(** [str.upper] on code points below 256, as the code points it gives:
    a-z and the Latin-1 small letters 224..254 (except the division sign
    247) move up by 32, the sharp s gives SS, and the micro sign and the
    y with diaeresis map to U+039C and U+0178. *)
Local Open Scope nat_scope.
Definition py_upper_char (c : ascii) : list nat :=
  let n := code c in
  if ((97 <=? n) && (n <=? 122)) || ((224 <=? n) && (n <=? 254) && negb (n =? 247))
  then [n - 32]
  else if n =? 223 then [83; 83]
  else if n =? 181 then [924]
  else if n =? 255 then [376]
  else [n].
Close Scope nat_scope.

Fixpoint py_upper (s : string) : list nat :=
  match s with
  | EmptyString => []
  | String c s' => py_upper_char c ++ py_upper s'
  end.

(** The namespace [parser.parse_args()] returns. *)
Record Args : Type := mkArgs {
  arg_source : list string;
  arg_list : bool;
  arg_flux : option R;
  arg_chart : bool;
  arg_linear : bool;
  arg_minf : float;
  arg_maxf : float;
  arg_html : option string;
  arg_typebrowser : option string
}.

(** What [main] prints or hands to the browser, in order. [PrintFlux]
    stands for the line [Flux of %s @ %0.2f MHz is %0.2f Jy]. *)
Inductive event : Type :=
| PrintHelp
| PrintLine (s : string)
| PrintFlux (source : string) (freq_mhz flux_jy : R)
| Display (html_text : text) (html_filename browser_type : option string).

(** How [main] ends: [sys.exit(code)], an exception, or a return. *)
Inductive outcome : Type :=
| Exit (code : Z)
| Raised (e : app_exc)
| Returned.

(** The list of sources: the positional arguments joined by spaces and
    split at commas, replaced by all sources when the first item is [all]
    in any case. *)
Definition main_sources (args : Args) : appres (list string) :=
  let sources := py_split (chr 44) (py_join " " (arg_source args)) in
  match sources with
  | [] => ARaise IndexError
  | s0 :: _ =>
      if list_eq_dec Nat.eq_dec (py_upper s0) [65; 76; 76]%nat
      then AOk get_sources else AOk sources
  end.

Definition sources_lowercase : list string := map py_lower get_sources.

(** The first source whose lower-case form is not in [sources_lowercase]. *)
Fixpoint first_invalid (sources : list string) : option string :=
  match sources with
  | [] => None
  | source :: rest =>
      if existsb (String.eqb (py_lower source)) sources_lowercase
      then first_invalid rest else Some source
  end.

Definition invalid_msg (source : string) : string :=
  ("Error: " ++ source ++ " is not a valid source name. Valid names are:")%string.

(** The [--flux] loop: a line per source; formatting a [None] flux raises
    [TypeError]. *)
Fixpoint flux_lines (sources : list string) (freq_mhz : R) : list event * option app_exc :=
  match sources with
  | [] => ([], None)
  | source :: rest =>
      match get_jy source (freq_mhz / 1000) with
      | Raise e => ([], Some (PyErr e))
      | Ok None => ([], Some TypeError)
      | Ok (Some flux_jy) =>
          let (evs, r) := flux_lines rest freq_mhz in
          (PrintFlux source freq_mhz flux_jy :: evs, r)
      end
  end.

(** [qc.Page(...)] with the given positional arguments: [Page.__init__]
    takes exactly one, [title_text]. *)
Definition Page_init (args : list (option text)) : appres Page :=
  match args with
  | [title_text] => AOk (new_page title_text)
  | _ => ARaise TypeError
  end.

(** [main] after [parse_args], given the values [freqs] of the finite
    floats that [_frange(args.minf, args.maxf, 0.01)] yields. [args.chart] is a bool
    (store_true), so [args.chart is None] is false and the chart branch
    is taken whenever [--list] and [--flux] are not given. *)
Definition main_after_parse (freqs : list R) (args : Args) : list event * outcome :=
  match main_sources args with
  | ARaise e => ([], Raised e)
  | AOk sources =>
      match first_invalid sources with
      | Some source => (PrintLine (invalid_msg source) :: map PrintLine get_sources, Exit 0%Z)
      | None =>
          if arg_list args then (map PrintLine get_sources, Exit 0%Z)
          else match arg_flux args with
          | Some freq_mhz =>
              let (evs, r) := flux_lines sources freq_mhz in
              (evs, match r with None => Exit 0%Z | Some e => Raised e end)
          | None =>
              match create_chart freqs sources (arg_linear args) with
              | ARaise e => ([], Raised e)
              | AOk chart =>
                  match Page_init [Some (s2l "Chart Test"); Some (s2l "Flux Densities")] with
                  | ARaise e => ([], Raised e)
                  | AOk page =>
                      match to_html (add_chart page chart) with
                      | Raise e => ([], Raised (PyErr e))
                      | Ok html_text =>
                          ([Display html_text (arg_html args) (arg_typebrowser args)], Returned)
                      end
                  end
              end
          end
      end
  end.

(** [main]: with no command-line argument the help is printed and the
    process exits with status 1. *)
Definition main (freqs : list R) (argv_len : nat) (args : Args) : list event * outcome :=
  if Nat.eqb argv_len 1 then ([PrintHelp], Exit 1%Z) else main_after_parse freqs args.

End CreateChart.

End FluxApp.

(** * Facts about flux_densities.py *)
Module FluxFacts.
Import Flux.
Open Scope R_scope.

Lemma find_coeffs_in (table : list SourceCoeffs) (s : string) (e : SourceCoeffs) :
  find_coeffs table s = Some e -> In e table /\ py_lower (name e) = py_lower s.
Proof.
  induction table as [|e' table IH]; simpl; [discriminate|].
  destruct (String.eqb_spec (py_lower (name e')) (py_lower s)) as [Heq|Hne].
  - intros H; injection H as <-; auto.
  - intros H; destruct (IH H); auto.
Qed.

Lemma find_coeffs_none (table : list SourceCoeffs) (s : string) :
  (forall e, In e table -> py_lower (name e) <> py_lower s) ->
  find_coeffs table s = None.
Proof.
  induction table as [|e' table IH]; simpl; intros Hall; [reflexivity|].
  destruct (String.eqb_spec (py_lower (name e')) (py_lower s)) as [Heq|Hne].
  - exfalso; exact (Hall e' (or_introl eq_refl) Heq).
  - apply IH; intros e He; apply Hall; auto.
Qed.

Lemma find_coeffs_lower (table : list SourceCoeffs) (s1 s2 : string) :
  py_lower s1 = py_lower s2 -> find_coeffs table s1 = find_coeffs table s2.
Proof.
  intros Hl; induction table as [|e' table IH]; simpl; [reflexivity|].
  rewrite Hl, IH; reflexivity.
Qed.

Lemma find_coeffs_unique (table : list SourceCoeffs) (s : string) (e : SourceCoeffs) :
  NoDup (map (fun r => py_lower (name r)) table) -> In e table ->
  py_lower s = py_lower (name e) -> find_coeffs table s = Some e.
Proof.
  induction table as [|e' table IH]; simpl; [contradiction|].
  intros Hnd Hin Hs; inversion Hnd as [|x l Hnotin Hnd']; subst.
  destruct (String.eqb_spec (py_lower (name e')) (py_lower s)) as [Heq|Hne].
  - destruct Hin as [<-|Hin]; [reflexivity|].
    exfalso; apply Hnotin; rewrite Heq, Hs.
    apply in_map_iff; exists e; auto.
  - destruct Hin as [<-|Hin]; [congruence|]; auto.
Qed.

Lemma table_lower_names_nodup :
  NoDup (map (fun r => py_lower (name r)) _COEFF_TABLE).
Proof.
  vm_compute.
  repeat (constructor; [simpl; intuition discriminate|]).
  constructor.
Qed.

Lemma get_source_coeffs_name (e : SourceCoeffs) :
  In e _COEFF_TABLE -> get_source_coeffs (name e) = Some e.
Proof.
  intros Hin; apply find_coeffs_unique; auto using table_lower_names_nodup.
Qed.

Lemma math_log_pos (f : R) : 0 < f -> math_log f 10 = Ok (ln f / ln 10).
Proof.
  intros Hf; unfold math_log.
  destruct (Rle_dec f 0); [lra|].
  destruct (Rle_dec 10 0); [lra|].
  destruct (Req_EM_T 10 1); [lra|].
  reflexivity.
Qed.

Lemma math_log_nonpos (f : R) : f <= 0 -> math_log f 10 = Raise ValueError.
Proof.
  intros Hf; unfold math_log.
  destruct (Rle_dec f 0); [reflexivity|lra].
Qed.

Lemma ln10_pos : 0 < ln 10.
Proof. rewrite <- ln_1; apply ln_increasing; lra. Qed.

Lemma log10_pow (n : nat) : ln (10 ^ n) / ln 10 = INR n.
Proof.
  rewrite ln_pow by lra; field; apply Rgt_not_eq, ln10_pos.
Qed.

Lemma Rpower10_nat (n : nat) : Rpower 10 (INR n) = 10 ^ n.
Proof. apply Rpower_pow; lra. Qed.

Lemma pow_IZR_le (a b : Z) (m n : nat) :
  (a ^ Z.of_nat m <= b ^ Z.of_nat n)%Z -> IZR a ^ m <= IZR b ^ n.
Proof. intros H; rewrite !pow_IZR; apply IZR_le, H. Qed.

Lemma overflow_lt_pow10 : float_overflow < 10 ^ 309.
Proof.
  unfold float_overflow.
  assert (H1 : 2 ^ 1024 <= 10 ^ 309)
    by (apply pow_IZR_le; apply Z.leb_le; vm_compute; reflexivity).
  assert (H2 : 0 < 2 ^ 970) by (apply pow_lt; lra).
  lra.
Qed.

Lemma pow10_300_lt_overflow : 10 ^ 300 < float_overflow.
Proof.
  unfold float_overflow.
  assert (H1 : 10 ^ 300 + 2 ^ 970 <= 2 ^ 1024).
  { rewrite !pow_IZR, <- plus_IZR; apply IZR_le, Z.leb_le; vm_compute; reflexivity. }
  lra.
Qed.

Lemma pow10_pos (n : nat) : 0 < 10 ^ n.
Proof. apply pow_lt; lra. Qed.

(** A power of ten at or above [10^309] overflows. *)
Lemma overflow_above (p : R) : 309 <= p -> float_overflow <= Rpower 10 p.
Proof.
  intros Hp.
  apply Rle_trans with (Rpower 10 (INR 309)).
  - rewrite Rpower10_nat; left; exact overflow_lt_pow10.
  - apply Rle_Rpower; [lra|].
    replace (INR 309) with 309 by (rewrite INR_IZR_INZ; reflexivity); exact Hp.
Qed.

(** A power of ten at or below [10^-324] rounds to zero. *)
Lemma underflow_below (p : R) : p <= -324 -> Rpower 10 p <= float_underflow.
Proof.
  intros Hp.
  apply Rle_trans with (Rpower 10 (- INR 324)).
  - apply Rle_Rpower; [lra|].
    replace (INR 324) with 324 by (rewrite INR_IZR_INZ; reflexivity); lra.
  - rewrite Rpower_Ropp, Rpower10_nat; unfold float_underflow.
    apply Rinv_le_contravar; [apply pow_lt; lra|].
    apply pow_IZR_le; apply Z.leb_le; vm_compute; reflexivity.
Qed.

(** A power of ten between [10^-300] and [10^300] is a normal float. *)
Lemma in_float_range (p : R) :
  -300 <= p <= 300 -> float_underflow < Rpower 10 p < float_overflow.
Proof.
  intros Hp; split.
  - apply Rlt_le_trans with (Rpower 10 (- INR 300)).
    + rewrite Rpower_Ropp, Rpower10_nat; unfold float_underflow.
      apply Rinv_lt_contravar.
      * apply Rmult_lt_0_compat; apply pow_lt; lra.
      * rewrite !pow_IZR; apply IZR_lt, Z.ltb_lt; vm_compute; reflexivity.
    + apply Rle_Rpower; [lra|].
      replace (INR 300) with 300 by (rewrite INR_IZR_INZ; reflexivity); lra.
  - apply Rle_lt_trans with (Rpower 10 (INR 300)).
    + apply Rle_Rpower; [lra|].
      replace (INR 300) with 300 by (rewrite INR_IZR_INZ; reflexivity); lra.
    + rewrite Rpower10_nat; exact pow10_300_lt_overflow.
Qed.

(** [get_jy] on a catalog row and a positive frequency: [pow(10.0, p)] of
    the six-term polynomial in [log10 f]. *)
Lemma get_jy_row (e : SourceCoeffs) (f : R) :
  In e _COEFF_TABLE -> 0 < f ->
  let x := ln f / ln 10 in
  get_jy (name e) f =
  (flux <- pow10 (a0 e + a1 e * x + a2 e * x ^ 2 + a3 e * x ^ 3
                  + a4 e * x ^ 4 + a5 e * x ^ 5) ;; Ok (Some flux)).
Proof.
  intros Hin Hf x; unfold get_jy.
  rewrite get_source_coeffs_name by exact Hin.
  rewrite math_log_pos by exact Hf; reflexivity.
Qed.

(** C1 (corrected): for every catalog source and every frequency [f > 0],
    whether or not [f] lies in [fmin, fmax], [get_jy] evaluates all six
    terms of [p = a0 + a1 x + a2 x^2 + a3 x^3 + a4 x^4 + a5 x^5] with
    [x = log10 f] and returns [pow(10.0, p)]: [10^p] when it lies in the
    float range, [0.0] when [10^p] underflows, and it raises OverflowError
    when [10^p] overflows; [fmin] and [fmax] do not occur in the result. *)
Theorem get_jy_polynomial (e : SourceCoeffs) (f : R) :
  In e _COEFF_TABLE -> 0 < f ->
  let x := ln f / ln 10 in
  let p := a0 e + a1 e * x + a2 e * x ^ 2 + a3 e * x ^ 3 + a4 e * x ^ 4 + a5 e * x ^ 5 in
  (float_underflow < Rpower 10 p < float_overflow ->
     get_jy (name e) f = Ok (Some (Rpower 10 p))) /\
  (Rpower 10 p <= float_underflow -> get_jy (name e) f = Ok (Some 0)) /\
  (float_overflow <= Rpower 10 p -> get_jy (name e) f = Raise OverflowError).
Proof.
  intros Hin Hf x p.
  rewrite (get_jy_row e f Hin Hf); fold x; fold p; unfold pow10.
  split; [|split]; intros H.
  - destruct (Rle_dec float_overflow (Rpower 10 p)); [lra|].
    destruct (Rle_dec (Rpower 10 p) float_underflow); [lra|reflexivity].
  - destruct (Rle_dec float_overflow (Rpower 10 p)) as [H'|_].
    + exfalso; assert (0 < float_underflow) by (apply Rinv_0_lt_compat, pow_lt; lra).
      assert (float_underflow < float_overflow).
      { apply Rlt_trans with (Rpower 10 0).
        - apply in_float_range; lra.
        - apply in_float_range; lra. }
      lra.
    + destruct (Rle_dec (Rpower 10 p) float_underflow); [reflexivity|lra].
  - destruct (Rle_dec float_overflow (Rpower 10 p)); [reflexivity|lra].
Qed.

Lemma get_jy_polynomial_witness :
  In (mkSourceCoeffs "Cygnus A" 3.3498 (-1.0022) (-0.225) 0.023 0.043 0.0 1.9 0.05 12)
     _COEFF_TABLE /\ 0 < 10 /\
  get_jy "Cygnus A" 10 =
  Ok (Some (Rpower 10 (3.3498 + -1.0022 * (ln 10 / ln 10) + -0.225 * (ln 10 / ln 10) ^ 2
                       + 0.023 * (ln 10 / ln 10) ^ 3 + 0.043 * (ln 10 / ln 10) ^ 4
                       + 0.0 * (ln 10 / ln 10) ^ 5))).
Proof.
  assert (Hin : In (mkSourceCoeffs "Cygnus A" 3.3498 (-1.0022) (-0.225) 0.023 0.043 0.0 1.9 0.05 12)
                   _COEFF_TABLE) by (simpl; tauto).
  assert (Hf : 0 < 10) by lra.
  split; [exact Hin|split; [exact Hf|]].
  apply (proj1 (get_jy_polynomial _ 10 Hin Hf)).
  apply in_float_range.
  replace (ln 10 / ln 10) with 1 by (field; apply Rgt_not_eq, ln10_pos).
  simpl; lra.
Defined.

(** C1 counterexample: Cygnus A at [10^10] GHz has [p = 423.8278]; [pow]
    overflows and [get_jy] raises OverflowError. J0133-3629 at [10^300]
    GHz has [p = -20447.556]; [pow] underflows and [get_jy] returns [0.0]. *)
Lemma get_jy_polynomial_counterexample :
  get_jy "Cygnus A" (10 ^ 10) = Raise OverflowError /\
  get_jy "J0133-3629" (10 ^ 300) = Ok (Some 0).
Proof.
  split.
  - pose proof (get_jy_row
                  (mkSourceCoeffs "Cygnus A" 3.3498 (-1.0022) (-0.225) 0.023 0.043 0.0 1.9 0.05 12)
                  (10 ^ 10) ltac:(simpl; tauto) (pow10_pos 10)) as E.
    cbn [name a0 a1 a2 a3 a4 a5] in E; rewrite E, log10_pow.
    replace (INR 10) with 10 by (rewrite INR_IZR_INZ; reflexivity).
    unfold pow10; destruct (Rle_dec float_overflow _) as [_|H]; [reflexivity|].
    exfalso; apply H, overflow_above; simpl; lra.
  - pose proof (get_jy_row
                  (mkSourceCoeffs "J0133-3629" 1.0440 (-0.6620) (-0.225) 0.0 0.0 0.0 267.0 0.20 4)
                  (10 ^ 300) ltac:(simpl; tauto) (pow10_pos 300)) as E.
    cbn [name a0 a1 a2 a3 a4 a5] in E; rewrite E, log10_pow.
    replace (INR 300) with 300 by (rewrite INR_IZR_INZ; reflexivity).
    assert (Hu : Rpower 10 (1.0440 + -0.6620 * 300 + -0.225 * 300 ^ 2 + 0.0 * 300 ^ 3
                            + 0.0 * 300 ^ 4 + 0.0 * 300 ^ 5) <= float_underflow)
      by (apply underflow_below; simpl; lra).
    unfold pow10; destruct (Rle_dec float_overflow _) as [H|_].
    + exfalso; assert (0 < float_underflow) by (apply Rinv_0_lt_compat, pow_lt; lra).
      assert (float_underflow < float_overflow).
      { apply Rlt_trans with (Rpower 10 0); apply in_float_range; lra. }
      lra.
    + destruct (Rle_dec _ float_underflow) as [_|H]; [reflexivity|contradiction].
Qed.

(** C4: for every catalog source and every frequency [f <= 0], [get_jy]
    raises the ValueError of [math.log] and returns no value. *)
Theorem get_jy_nonpositive_raises (e : SourceCoeffs) (f : R) :
  In e _COEFF_TABLE -> f <= 0 -> get_jy (name e) f = Raise ValueError.
Proof.
  intros Hin Hf; unfold get_jy.
  rewrite get_source_coeffs_name by exact Hin.
  rewrite math_log_nonpos by exact Hf; reflexivity.
Qed.

Lemma get_jy_nonpositive_raises_witness :
  In (mkSourceCoeffs "3C48" 1.3253 (-0.7553) (-0.1914) 0.0498 0.0 0.0 3.1 0.05 50)
     _COEFF_TABLE /\ 0 <= 0 /\ get_jy "3C48" 0 = Raise ValueError.
Proof.
  assert (Hin : In (mkSourceCoeffs "3C48" 1.3253 (-0.7553) (-0.1914) 0.0498 0.0 0.0 3.1 0.05 50)
                   _COEFF_TABLE) by (simpl; tauto).
  assert (Hf : 0 <= 0) by lra.
  split; [exact Hin|split; [exact Hf|]].
  exact (get_jy_nonpositive_raises _ 0 Hin Hf).
Defined.

(** C5: for a name whose lower-cased form differs from every lower-cased
    catalog name, [get_jy] returns [None] for every frequency, including
    non-positive ones, and raises nothing. *)
Theorem get_jy_unknown_none (s : string) (f : R) :
  (forall e, In e _COEFF_TABLE -> py_lower (name e) <> py_lower s) ->
  get_jy s f = Ok None.
Proof.
  intros Hall; unfold get_jy, get_source_coeffs.
  rewrite find_coeffs_none by exact Hall; reflexivity.
Qed.

Lemma get_jy_unknown_none_witness :
  (forall e, In e _COEFF_TABLE -> py_lower (name e) <> py_lower "Sun") /\
  get_jy "Sun" (-1) = Ok None.
Proof.
  assert (H : forall e, In e _COEFF_TABLE -> py_lower (name e) <> py_lower "Sun").
  { intros e He; simpl in He.
    repeat (destruct He as [<-|He]; [vm_compute; discriminate|]); contradiction. }
  split; [exact H|exact (get_jy_unknown_none "Sun" (-1) H)].
Defined.

(** C6: lookup is a case-insensitive exact match on the whole registered
    name: a string equal to a catalog name up to case finds that row, case
    variants give the same result, and a string that is no such variant of
    any registered name (a part of a name, or one with added or removed
    spaces) gives [None]. *)
Theorem get_source_coeffs_case_insensitive :
  (forall e s, In e _COEFF_TABLE -> py_lower s = py_lower (name e) ->
               get_source_coeffs s = Some e) /\
  (forall s1 s2, py_lower s1 = py_lower s2 ->
                 get_source_coeffs s1 = get_source_coeffs s2) /\
  (forall s, (forall e, In e _COEFF_TABLE -> py_lower s <> py_lower (name e)) ->
             get_source_coeffs s = None).
Proof.
  split; [|split].
  - intros e s Hin Hs; apply find_coeffs_unique; auto using table_lower_names_nodup.
  - intros s1 s2 H; apply find_coeffs_lower; exact H.
  - intros s Hall; apply find_coeffs_none; intros e He Heq.
    exact (Hall e He (eq_sym Heq)).
Qed.

Lemma get_source_coeffs_case_insensitive_witness :
  get_source_coeffs "cygnus a" = get_source_coeffs "CYGNUS A" /\
  get_source_coeffs "cygnus a" =
    Some (mkSourceCoeffs "Cygnus A" 3.3498 (-1.0022) (-0.225) 0.023 0.043 0.0 1.9 0.05 12) /\
  get_source_coeffs "Cygnus" = None /\ get_source_coeffs "Cygnus  A" = None.
Proof.
  destruct get_source_coeffs_case_insensitive as [H1 [H2 H3]].
  split; [apply H2; reflexivity|].
  split; [apply H1; [simpl; tauto|reflexivity]|].
  split; apply H3; intros e He; simpl in He;
    repeat (destruct He as [<-|He]; [vm_compute; discriminate|]); contradiction.
Defined.

(** C7: [get_sources] returns the 20 names of the table, in declaration
    order; it takes no argument and reads only the constant table. *)
Theorem get_sources_declared_order :
  get_sources = map name _COEFF_TABLE /\ length get_sources = 20%nat /\
  get_sources =
  ["J0133-3629"; "3C48"; "Fornax A"; "3C123"; "J0444-2809"; "3C138"; "Pictor A";
   "Taurus A"; "3C147"; "3C196"; "Hydra A"; "Virgo A"; "3C286"; "3C295";
   "Hercules A"; "3C353"; "3C380"; "Cygnus A"; "3C444"; "Cassiopeia A"]%string.
Proof.
  split; [|split]; reflexivity.
Qed.

End FluxFacts.

(** * [str.replace] with a quoted, clean search string *)
Module ReplaceFacts.
Import QuickChart JsonText.

Lemma clean_not_dq (c : ascii) : clean c = true -> c <> dq.
Proof. intros H ->; discriminate H. Qed.

Lemma clean_not_spc (c : ascii) : clean c = true -> c <> spc.
Proof. intros H ->; discriminate H. Qed.

Lemma Forall_clean_not_dq (l : text) :
  Forall (fun c => clean c = true) l -> Forall (fun c => c <> dq) l.
Proof. apply Forall_impl; intros c; apply clean_not_dq. Qed.

Lemma colon_not_dq : colon <> dq.
Proof. intros H; vm_compute in H; discriminate H. Qed.

Lemma spc_not_dq : spc <> dq.
Proof. intros H; vm_compute in H; discriminate H. Qed.

Lemma prefixb_app (p r : text) : prefixb p (p ++ r) = true.
Proof.
  induction p as [|a p IH]; simpl; [reflexivity|].
  destruct (ascii_dec a a) as [_|n]; [exact IH|contradiction].
Qed.

Lemma prefixb_true (p s : text) : prefixb p s = true -> exists r, s = p ++ r.
Proof.
  revert s; induction p as [|a p IH]; intros s H; simpl in *.
  - exists s; reflexivity.
  - destruct s as [|b s]; [discriminate|].
    destruct (ascii_dec a b) as [<-|]; [|discriminate].
    destruct (IH s H) as [r ->]; exists r; reflexivity.
Qed.

Lemma replace_from_cons0 (old new : text) (c : ascii) (s : text) :
  replace_from old new 0 (c :: s) =
  if prefixb old (c :: s) then new ++ replace_from old new (pred (length old)) s
  else c :: replace_from old new 0 s.
Proof. reflexivity. Qed.

Lemma replace_from_skip (old new A B : text) :
  replace_from old new (length A) (A ++ B) = replace_from old new 0 B.
Proof. induction A as [|a A IH]; simpl; [reflexivity|exact IH]. Qed.

Lemma quote_sound_suffix (A T : text) : quote_sound (A ++ T) -> quote_sound T.
Proof.
  intros H A' B x y Hx Hy E; apply (H (A ++ A') B x y Hx Hy).
  rewrite E, app_assoc; reflexivity.
Qed.

Lemma text_len_ind (P : text -> Prop) :
  (forall T, (forall T', length T' < length T -> P T') -> P T) -> forall T, P T.
Proof.
  intros H.
  assert (Hn : forall n T, length T <= n -> P T).
  { induction n as [|n IHn]; intros T HT; apply H; intros T' HT'; [lia|].
    apply IHn; lia. }
  intros T; apply (Hn (length T)); lia.
Qed.

(** A text whose prefix before some double quote is quote-free. *)
Lemma quote_free_app_infix (v R A X : text) :
  Forall (fun c => c <> dq) v -> v ++ R = A ++ dq :: X -> exists A', R = A' ++ dq :: X.
Proof.
  intros Hv E; apply app_eq_app in E as [l [[E1 E2]|[E1 E2]]].
  - destruct l as [|c l'].
    + exists []; symmetry; exact E2.
    + exfalso; injection E2 as Ec _; subst c v.
      apply Forall_app in Hv as [_ Hl]; inversion Hl; contradiction.
  - exists l; exact E2.
Qed.

Lemma quote_free_split_eq (t1 t2 B1 B2 : text) :
  Forall (fun c => c <> dq) t1 -> Forall (fun c => c <> dq) t2 ->
  t1 ++ dq :: B1 = t2 ++ dq :: B2 -> t1 = t2.
Proof.
  revert t2; induction t1 as [|a t1 IH]; intros t2 H1 H2 E; destruct t2 as [|b t2];
    simpl in E; injection E; intros.
  - reflexivity.
  - subst b; inversion H2; contradiction.
  - subst a; inversion H1; contradiction.
  - subst b; inversion H1; inversion H2; subst; f_equal; eauto.
Qed.

Section Replace.
Variables tok var : text.
Hypothesis Htok : Forall (fun c => clean c = true) tok.
Hypothesis Hvar : Forall (fun c => c <> dq) var.

Let old : text := dq :: tok ++ [dq].
Let rep (T : text) : text := replace_from old var 0 T.

Lemma rep_nil : rep [] = [].
Proof. reflexivity. Qed.

Lemma rep_old (T : text) : rep (old ++ T) = var ++ rep T.
Proof.
  unfold rep, old.
  change ((dq :: tok ++ [dq]) ++ T) with (dq :: ((tok ++ [dq]) ++ T)).
  rewrite replace_from_cons0.
  pose proof (prefixb_app (dq :: tok ++ [dq]) T) as Hp.
  change ((dq :: tok ++ [dq]) ++ T) with (dq :: ((tok ++ [dq]) ++ T)) in Hp.
  rewrite Hp.
  change (pred (length (dq :: tok ++ [dq]))) with (length (tok ++ [dq])).
  rewrite replace_from_skip; reflexivity.
Qed.

Lemma rep_nomatch (c : ascii) (s : text) :
  prefixb old (c :: s) = false -> rep (c :: s) = c :: rep s.
Proof. intros Hp; unfold rep; rewrite replace_from_cons0, Hp; reflexivity. Qed.

Lemma rep_quote_free (u T : text) :
  Forall (fun c => c <> dq) u -> rep (u ++ T) = u ++ rep T.
Proof.
  induction 1 as [|x l Hx Hl IH]; [reflexivity|].
  simpl; rewrite rep_nomatch, IH; [reflexivity|].
  unfold old; cbn [prefixb app].
  destruct (ascii_dec dq x) as [E|E]; [congruence|reflexivity].
Qed.

Lemma rep_cases (T : text) :
  T = [] \/ (exists T3, T = old ++ T3) \/
  (exists c T2, T = c :: T2 /\ prefixb old (c :: T2) = false).
Proof.
  destruct T as [|c T2]; [left; reflexivity|right].
  destruct (prefixb old (c :: T2)) eqn:Hp.
  - left; apply prefixb_true; exact Hp.
  - right; exists c, T2; auto.
Qed.

Lemma old_longer (T3 : text) : length T3 < length (old ++ T3).
Proof. unfold old; simpl; rewrite length_app; lia. Qed.

(** A clean run followed by a quote in the output comes from the same run
    followed by a quote in the input. *)
Lemma rep_prefix_back (T2 u t r : text) :
  Forall (fun c => clean c = true) u -> Forall (fun c => clean c = true) t ->
  quote_sound (dq :: u ++ T2) -> rep T2 = t ++ dq :: r ->
  exists r', T2 = t ++ dq :: r'.
Proof.
  revert u t r; induction T2 as [T2 IH] using text_len_ind; intros u t r Hu Ht Hs HR.
  destruct (rep_cases T2) as [->|[[T3 ->]|[c [T3 [-> Hp]]]]].
  - rewrite rep_nil in HR; destruct t; discriminate.
  - exfalso; apply (Hs [] T3 u tok Hu Htok).
    unfold old; simpl; rewrite <- app_assoc; reflexivity.
  - rewrite rep_nomatch in HR by exact Hp.
    destruct t as [|c' t'].
    + simpl in HR; injection HR as Hc _; subst c; exists T3; reflexivity.
    + simpl in HR; injection HR as Hc HR; subst c'.
      inversion Ht as [|? ? Hc' Ht']; subst.
      destruct (IH T3 ltac:(simpl; lia) (u ++ [c]) t' r) as [r' Hr'].
      * apply Forall_app; auto.
      * exact Ht'.
      * rewrite <- app_assoc; exact Hs.
      * exact HR.
      * exists r'; rewrite Hr'; reflexivity.
Qed.

(** Every quoted search string is replaced. *)
Lemma rep_removes (T : text) : quote_sound T -> ~ infix old (rep T).
Proof.
  induction T as [T IH] using text_len_ind; intros Hs [A [B HR]].
  destruct (rep_cases T) as [->|[[T3 ->]|[c [T2 [-> Hp]]]]].
  - rewrite rep_nil in HR; destruct A; discriminate.
  - rewrite rep_old in HR; unfold old in HR; simpl in HR.
    destruct (quote_free_app_infix _ _ _ _ Hvar HR) as [A' HR'].
    apply (IH T3 (old_longer T3) (quote_sound_suffix old T3 Hs)).
    exists A', B; rewrite HR'; reflexivity.
  - rewrite rep_nomatch in HR by exact Hp.
    destruct A as [|a A'].
    + simpl in HR; injection HR as -> HR.
      rewrite <- app_assoc in HR; simpl in HR.
      destruct (rep_prefix_back T2 [] tok B (Forall_nil _) Htok Hs HR) as [r' ->].
      replace (dq :: tok ++ dq :: r') with (old ++ r') in Hp
        by (unfold old; simpl; rewrite <- app_assoc; reflexivity).
      rewrite prefixb_app in Hp; discriminate.
    + simpl in HR; injection HR as _ HR.
      apply (IH T2 ltac:(simpl; lia) (quote_sound_suffix [c] T2 Hs)).
      exists A', B; exact HR.
Qed.

(** No other quoted clean string is created. *)
Lemma rep_no_new (T t : text) :
  quote_sound T -> Forall (fun c => clean c = true) t ->
  infix (dq :: t ++ [dq]) (rep T) -> infix (dq :: t ++ [dq]) T.
Proof.
  revert t; induction T as [T IH] using text_len_ind; intros t Hs Ht [A [B HR]].
  destruct (rep_cases T) as [->|[[T3 ->]|[c [T2 [-> Hp]]]]].
  - rewrite rep_nil in HR; destruct A; discriminate.
  - rewrite rep_old in HR; simpl in HR.
    destruct (quote_free_app_infix _ _ _ _ Hvar HR) as [A' HR'].
    destruct (IH T3 (old_longer T3) t (quote_sound_suffix old T3 Hs) Ht)
      as [A2 [B2 E]]; [exists A', B; rewrite HR'; reflexivity|].
    exists (old ++ A2), B2; rewrite E, app_assoc; reflexivity.
  - rewrite rep_nomatch in HR by exact Hp.
    destruct A as [|a A'].
    + simpl in HR; injection HR as -> HR.
      rewrite <- app_assoc in HR; simpl in HR.
      destruct (rep_prefix_back T2 [] t B (Forall_nil _) Ht Hs HR) as [r' ->].
      exists [], r'; simpl; rewrite <- app_assoc; reflexivity.
    + simpl in HR; injection HR as _ HR.
      destruct (IH T2 ltac:(simpl; lia) t (quote_sound_suffix [c] T2 Hs) Ht)
        as [A2 [B2 E]]; [exists A', B; exact HR|].
      exists (c :: A2), B2; rewrite E; reflexivity.
Qed.

Lemma rep_prefix_back_rest (T2 t r : text) :
  Forall (fun c => clean c = true) t ->
  quote_sound (dq :: T2) -> rep T2 = t ++ dq :: r ->
  exists r', T2 = t ++ dq :: r' /\ rep (dq :: r') = dq :: r.
Proof.
  intros Ht Hs HR.
  destruct (rep_prefix_back T2 [] t r (Forall_nil _) Ht Hs HR) as [r' E].
  exists r'; split; [exact E|].
  rewrite E, rep_quote_free in HR by exact (Forall_clean_not_dq t Ht).
  apply app_inv_head in HR; exact HR.
Qed.

(** A quoted clean run in the output, with what follows it, comes from the
    input. *)
Lemma rep_back (T A t R : text) :
  quote_sound T -> Forall (fun c => clean c = true) t ->
  rep T = A ++ dq :: t ++ dq :: R ->
  exists A' R', T = A' ++ dq :: t ++ dq :: R' /\ rep (dq :: R') = dq :: R.
Proof.
  revert A; induction T as [T IH] using text_len_ind; intros A Hs Ht HR.
  destruct (rep_cases T) as [->|[[T3 ->]|[c [T2 [-> Hp]]]]].
  - rewrite rep_nil in HR; destruct A; discriminate.
  - rewrite rep_old in HR.
    destruct (quote_free_app_infix _ _ _ _ Hvar HR) as [A' HR'].
    destruct (IH T3 (old_longer T3) A' (quote_sound_suffix old T3 Hs) Ht HR')
      as [A2 [R2 [E1 E2]]].
    exists (old ++ A2), R2; split; [rewrite E1, app_assoc; reflexivity|exact E2].
  - rewrite rep_nomatch in HR by exact Hp.
    destruct A as [|a A'].
    + simpl in HR; injection HR as -> HR.
      destruct (rep_prefix_back_rest T2 t R Ht Hs HR) as [r' [E1 E2]].
      exists [], r'; split; [rewrite E1; reflexivity|exact E2].
    + simpl in HR; injection HR as _ HR.
      destruct (IH T2 ltac:(simpl; lia) A' (quote_sound_suffix [c] T2 Hs) Ht HR)
        as [A2 [R2 [E1 E2]]].
      exists (c :: A2), R2; split; [rewrite E1; reflexivity|exact E2].
Qed.

Lemma rep_quote_sound (T : text) : quote_sound T -> quote_sound (rep T).
Proof.
  intros Hs A B x y Hx Hy HR.
  destruct (rep_back T A x (y ++ dq :: B) Hs Hx HR) as [A1 [R1 [E1 E2]]].
  assert (Hs1 : quote_sound (dq :: R1)).
  { apply (quote_sound_suffix (A1 ++ dq :: x)).
    replace ((A1 ++ dq :: x) ++ dq :: R1) with T
      by (rewrite E1, <- app_assoc; reflexivity).
    exact Hs. }
  destruct (prefixb old (dq :: R1)) eqn:Hp.
  - destruct (prefixb_true _ _ Hp) as [R3 E3].
    assert (E3' : R1 = tok ++ dq :: R3)
      by (unfold old in E3; simpl in E3; injection E3 as E3;
          rewrite <- app_assoc in E3; exact E3).
    apply (Hs A1 R3 x tok Hx Htok); rewrite E1, E3'; reflexivity.
  - rewrite rep_nomatch in E2 by exact Hp.
    injection E2 as E2.
    destruct (rep_prefix_back R1 [] y B (Forall_nil _) Hy Hs1 E2) as [r' E4].
    apply (Hs A1 r' x y Hx Hy); rewrite E1, E4; reflexivity.
Qed.

Lemma old_overlap_colon (T2 A R : text) :
  old ++ T2 = A ++ colon :: spc :: R ->
  exists A', A = old ++ A' /\ T2 = A' ++ colon :: spc :: R.
Proof.
  intros E; apply app_eq_app in E as [l [[E1 E2]|[E1 E2]]].
  - destruct l as [|x l'].
    + exists []; rewrite app_nil_r in E1; split; [rewrite E1, app_nil_r; reflexivity|].
      simpl in E2 |- *; symmetry; exact E2.
    + exfalso; simpl in E2; injection E2 as Ex E2; subst x.
      destruct l' as [|y l''].
      * unfold old in E1; change (dq :: tok ++ [dq]) with ((dq :: tok) ++ [dq]) in E1.
        apply app_inj_tail in E1 as [_ E1]; exact (colon_not_dq (eq_sym E1)).
      * simpl in E2; injection E2 as Ey _; subst y.
        assert (Hin : In spc old) by (rewrite E1; apply in_or_app; right; right; left; reflexivity).
        unfold old in Hin; destruct Hin as [Hin|Hin]; [exact (spc_not_dq (eq_sym Hin))|].
        apply in_app_or in Hin as [Hin|[Hin|[]]].
        -- rewrite Forall_forall in Htok; exact (clean_not_spc spc (Htok spc Hin) eq_refl).
        -- exact (spc_not_dq (eq_sym Hin)).
  - exists l; split; [exact E1|exact E2].
Qed.

(** A field [: w] is carried to [: w'] by the replacement, wherever it
    stands, as soon as it is at the start of the text. *)
Lemma rep_colon_field (w w' : text) :
  (forall B, quote_sound (colon :: spc :: w ++ B) ->
     exists B', rep (colon :: spc :: w ++ B) = colon :: spc :: w' ++ B') ->
  forall T A B, quote_sound T -> T = A ++ colon :: spc :: w ++ B ->
  exists A' B', rep T = A' ++ colon :: spc :: w' ++ B'.
Proof.
  intros Hbase T; induction T as [T IH] using text_len_ind; intros A B Hs ET.
  destruct A as [|a A1].
  - simpl in ET; subst T; destruct (Hbase B Hs) as [B' E]; exists [], B'; exact E.
  - destruct (rep_cases T) as [->|[[T3 ->]|[c [T2 [-> Hp]]]]].
    + discriminate ET.
    + destruct (old_overlap_colon T3 (a :: A1) (w ++ B) ET) as [A' [E1 E2]].
      destruct (IH T3 (old_longer T3) A' B (quote_sound_suffix old T3 Hs) E2)
        as [A2 [B2 E3]].
      exists (var ++ A2), B2; rewrite rep_old, E3, app_assoc; reflexivity.
    + injection ET as -> ET.
      destruct (IH T2 ltac:(simpl; lia) A1 B (quote_sound_suffix [a] T2 Hs) ET)
        as [A2 [B2 E3]].
      exists (a :: A2), B2; rewrite rep_nomatch by exact Hp; rewrite E3; reflexivity.
Qed.

Lemma rep_keeps_bare (w T A B : text) :
  Forall (fun c => c <> dq) w -> quote_sound T -> T = A ++ colon :: spc :: w ++ B ->
  exists A' B', rep T = A' ++ colon :: spc :: w ++ B'.
Proof.
  intros Hw; apply rep_colon_field; intros B' _.
  exists (rep B').
  change (colon :: spc :: w ++ B') with ((colon :: spc :: w) ++ B').
  apply rep_quote_free.
  constructor; [exact colon_not_dq|constructor; [exact spc_not_dq|exact Hw]].
Qed.

Lemma rep_replaces_field (T A B : text) :
  quote_sound T -> T = A ++ colon :: spc :: old ++ B ->
  exists A' B', rep T = A' ++ colon :: spc :: var ++ B'.
Proof.
  apply rep_colon_field; intros B' _.
  exists (rep B').
  change (colon :: spc :: old ++ B') with ([colon; spc] ++ old ++ B').
  rewrite rep_quote_free, rep_old; [reflexivity|].
  constructor; [exact colon_not_dq|constructor; [exact spc_not_dq|constructor]].
Qed.

Lemma rep_keeps_other_field (t T A B : text) :
  Forall (fun c => clean c = true) t -> t <> tok ->
  quote_sound T -> T = A ++ colon :: spc :: (dq :: t ++ [dq]) ++ B ->
  exists A' B', rep T = A' ++ colon :: spc :: (dq :: t ++ [dq]) ++ B'.
Proof.
  intros Ht Hne; apply rep_colon_field; intros B' Hs.
  exists (rep B').
  cbn [app]; rewrite <- !app_assoc; cbn [app].
  change (colon :: spc :: dq :: t ++ dq :: B') with ([colon; spc] ++ dq :: t ++ dq :: B').
  rewrite rep_quote_free
    by (constructor; [exact colon_not_dq|constructor; [exact spc_not_dq|constructor]]).
  rewrite rep_nomatch.
  2:{ destruct (prefixb old (dq :: t ++ dq :: B')) eqn:Hp; [|reflexivity].
      exfalso; destruct (prefixb_true _ _ Hp) as [r Er].
      unfold old in Er; simpl in Er; injection Er as Er; rewrite <- app_assoc in Er.
      exact (Hne (quote_free_split_eq t tok B' r (Forall_clean_not_dq t Ht)
                    (Forall_clean_not_dq tok Htok) Er)). }
  rewrite rep_quote_free by exact (Forall_clean_not_dq t Ht).
  rewrite rep_nomatch; [reflexivity|].
  destruct (prefixb old (dq :: B')) eqn:Hp; [|reflexivity].
  exfalso; destruct (prefixb_true _ _ Hp) as [r Er].
  unfold old in Er; simpl in Er; injection Er as Er; rewrite <- app_assoc in Er.
  apply (Hs [colon; spc] r t tok Ht Htok); rewrite Er; simpl.
  rewrite <- app_assoc; reflexivity.
Qed.
End Replace.

Lemma replace_space_verbatim (c : ascii) :
  verbatim c = true ->
  clean (if ascii_dec c spc then chr 95 else c) = true /\
  verbatim (if ascii_dec c spc then chr 95 else c) = true.
Proof.
  destruct c as [b0 b1 b2 b3 b4 b5 b6 b7].
  destruct b0, b1, b2, b3, b4, b5, b6, b7; vm_compute;
    first [intros H; discriminate H | intros _; split; reflexivity].
Qed.

Lemma esc_char_verbatim (c : ascii) : verbatim c = true -> esc_char c = [c].
Proof.
  destruct c as [b0 b1 b2 b3 b4 b5 b6 b7].
  destruct b0, b1, b2, b3, b4, b5, b6, b7; vm_compute;
    first [intros H; discriminate H | intros _; reflexivity].
Qed.

Lemma encode_str_verbatim (t : text) :
  Forall (fun c => verbatim c = true) t -> encode_str t = dq :: t ++ [dq].
Proof.
  intros Ht; unfold encode_str; f_equal; f_equal.
  induction Ht as [|c t Hc Ht IH]; [reflexivity|].
  simpl; rewrite esc_char_verbatim by exact Hc; simpl; rewrite IH; reflexivity.
Qed.

Lemma replace_space_good (n : text) :
  Forall (fun c => verbatim c = true) n ->
  Forall (fun c => clean c = true /\ verbatim c = true) (replace_space n).
Proof.
  intros Hn; unfold replace_space; apply Forall_map.
  apply (Forall_impl _ replace_space_verbatim Hn).
Qed.

Lemma good_name (s : Series) :
  good_series s = true -> Forall (fun c => verbatim c = true) (sr_name s).
Proof. intros H; apply Forall_forall, forallb_forall, H. Qed.

Lemma good_placeholder (s : Series) :
  good_series s = true ->
  Forall (fun c => clean c = true /\ verbatim c = true) (placeholder (get_name s)).
Proof.
  intros H; unfold placeholder, get_name; apply Forall_app; split.
  - apply replace_space_good, good_name, H.
  - apply Forall_forall; intros c Hc; vm_compute in Hc.
    repeat (destruct Hc as [<-|Hc]; [split; reflexivity|]); destruct Hc.
Qed.

Lemma good_placeholder_clean (s : Series) :
  good_series s = true -> Forall (fun c => clean c = true) (placeholder (get_name s)).
Proof.
  intros H; apply (Forall_impl _ (fun (c : ascii) (Hc : clean c = true /\ verbatim c = true) => proj1 Hc)).
  exact (good_placeholder s H).
Qed.

Lemma good_var_clean (s : Series) :
  good_series s = true -> Forall (fun c => clean c = true) (javascript_var_name s).
Proof.
  intros H.
  assert (Hv : Forall (fun c => clean c = true) (replace_space (sr_name s) ++ s2l "_data")).
  { apply Forall_app; split.
    - apply (Forall_impl _ (fun (c : ascii) (Hc : clean c = true /\ verbatim c = true) => proj1 Hc)).
      apply replace_space_good, good_name, H.
    - apply Forall_forall; intros c Hc; vm_compute in Hc.
      repeat (destruct Hc as [<-|Hc]; [reflexivity|]); destruct Hc. }
  unfold javascript_var_name.
  destruct (replace_space (sr_name s) ++ s2l "_data") as [|c l]; [exact Hv|].
  destruct (py_isdigit c); [constructor; [reflexivity|exact Hv]|exact Hv].
Qed.

Lemma good_var_quote_free (s : Series) :
  good_series s = true -> Forall (fun c => c <> dq) (javascript_var_name s).
Proof. intros H; apply Forall_clean_not_dq, good_var_clean, H. Qed.

Lemma placeholder_same_var (s1 s2 : Series) :
  placeholder (get_name s1) = placeholder (get_name s2) ->
  javascript_var_name s1 = javascript_var_name s2.
Proof.
  unfold placeholder, get_name, javascript_var_name; intros E.
  apply app_inv_tail in E; rewrite E; reflexivity.
Qed.

Lemma quoted_placeholder_eq (s : Series) :
  quoted_placeholder s = dq :: placeholder (get_name s) ++ [dq].
Proof. reflexivity. Qed.

Lemma py_replace_quoted (T : text) (s : Series) (v : text) :
  py_replace T (quoted_placeholder s) v =
  replace_from (dq :: placeholder (get_name s) ++ [dq]) v 0 T.
Proof. reflexivity. Qed.

Section Steps.
Variable s0 : Series.
Hypothesis Hs0 : good_series s0 = true.

Let tok0 := placeholder (get_name s0).
Let var0 := javascript_var_name s0.
Let step (T : text) : text := py_replace T (quoted_placeholder s0) var0.

Let Htok0 : Forall (fun c => clean c = true) tok0 := good_placeholder_clean s0 Hs0.
Let Hvar0 : Forall (fun c => c <> dq) var0 := good_var_quote_free s0 Hs0.

Lemma step_quote_sound (T : text) : quote_sound T -> quote_sound (step T).
Proof. unfold step; rewrite py_replace_quoted; apply rep_quote_sound; assumption. Qed.

Lemma step_settled (s : Series) (T : text) :
  good_series s = true -> quote_sound T -> settled s T -> settled s (step T).
Proof.
  intros Hs HT [[A [B E]] Hn]; unfold step; rewrite py_replace_quoted; split.
  - exact (rep_keeps_bare tok0 var0 Htok0 _ T A B (good_var_quote_free s Hs) HT E).
  - intros Hi; apply Hn; rewrite quoted_placeholder_eq in Hi |- *.
    exact (rep_no_new tok0 var0 Htok0 Hvar0 T _ HT (good_placeholder_clean s Hs) Hi).
Qed.

Lemma step_self (T : text) : quote_sound T -> placed s0 T -> settled s0 (step T).
Proof.
  intros HT Hp; unfold step; rewrite py_replace_quoted; split.
  - destruct Hp as [[A [B E]]|[[A [B E]] _]].
    + exact (rep_replaces_field tok0 var0 Htok0 T A B HT E).
    + exact (rep_keeps_bare tok0 var0 Htok0 _ T A B Hvar0 HT E).
  - exact (rep_removes tok0 var0 Htok0 Hvar0 T HT).
Qed.

Lemma step_placed (s : Series) (T : text) :
  good_series s = true -> quote_sound T -> placed s T -> placed s (step T).
Proof.
  intros Hs HT [[A [B E]]|Hset]; [|right; exact (step_settled s T Hs HT Hset)].
  destruct (list_eq_dec ascii_dec (placeholder (get_name s)) tok0) as [Eq|Ne].
  - right; unfold step; rewrite py_replace_quoted; split.
    + rewrite (placeholder_same_var s s0 Eq).
      rewrite quoted_placeholder_eq, Eq in E.
      exact (rep_replaces_field tok0 var0 Htok0 T A B HT E).
    + rewrite quoted_placeholder_eq, Eq.
      exact (rep_removes tok0 var0 Htok0 Hvar0 T HT).
  - left; unfold step; rewrite py_replace_quoted, quoted_placeholder_eq.
    exact (rep_keeps_other_field tok0 var0 Htok0 _ T A B
             (good_placeholder_clean s Hs) Ne HT E).
Qed.

End Steps.

Lemma fold_quote_sound (L : list Series) (T : text) :
  Forall (fun s => good_series s = true) L -> quote_sound T ->
  quote_sound (data_placeholder_replace T L).
Proof.
  unfold data_placeholder_replace; intros HL; revert T.
  induction HL as [|s0 L H0 HL IH]; intros T HT; [exact HT|].
  simpl; apply IH, (step_quote_sound s0 H0 T HT).
Qed.

Lemma fold_settled (L : list Series) (s : Series) (T : text) :
  Forall (fun s => good_series s = true) L -> good_series s = true ->
  quote_sound T -> settled s T -> settled s (data_placeholder_replace T L).
Proof.
  unfold data_placeholder_replace; intros HL Hs; revert T.
  induction HL as [|s0 L H0 HL IH]; intros T HT Hset; [exact Hset|].
  simpl; apply IH; [exact (step_quote_sound s0 H0 T HT)|].
  exact (step_settled s0 H0 s T Hs HT Hset).
Qed.

(** Every series whose field is in place ends up settled. *)
Lemma fold_placed (L : list Series) (s : Series) (T : text) :
  Forall (fun s => good_series s = true) L -> good_series s = true ->
  quote_sound T -> placed s T -> In s L -> settled s (data_placeholder_replace T L).
Proof.
  intros HL Hs; revert T; induction HL as [|s0 L H0 HL IH]; intros T HT Hp Hin;
    [destruct Hin|].
  destruct Hin as [<-|Hin].
  - apply (fold_settled L s0 (py_replace T (quoted_placeholder s0) (javascript_var_name s0))
             HL Hs (step_quote_sound s0 Hs T HT) (step_self s0 Hs T HT Hp)).
  - apply (IH (py_replace T (quoted_placeholder s0) (javascript_var_name s0))
             (step_quote_sound s0 H0 T HT) (step_placed s0 H0 s T Hs HT Hp) Hin).
Qed.

End ReplaceFacts.

(** * The text of [json.dumps] *)
Module DumpFacts.
Import QuickChart JsonText ReplaceFacts.

Lemma lex_run_app (st : lexst) (a b : text) :
  lex_run st (a ++ b) = lex_run (lex_run st a) b.
Proof. unfold lex_run; apply fold_left_app. Qed.

Lemma lex_run_cons (st : lexst) (c : ascii) (t : text) :
  lex_run st (c :: t) = lex_run (lex_step st c) t.
Proof. reflexivity. Qed.

Lemma lex_run_bad (t : text) : lex_run Bad t = Bad.
Proof. induction t as [|c t IH]; [reflexivity|exact IH]. Qed.

Lemma clean_eqb (c : ascii) :
  clean c = true -> Ascii.eqb c dq = false /\ Ascii.eqb c bsl = false.
Proof.
  unfold clean; destruct (Ascii.eqb c dq), (Ascii.eqb c bsl); simpl; auto; discriminate.
Qed.

Lemma lex_clean_instr (x : text) :
  Forall (fun c => clean c = true) x -> lex_run InStr x = InStr.
Proof.
  induction 1 as [|c x Hc Hx IH]; [reflexivity|].
  rewrite lex_run_cons; simpl; destruct (clean_eqb c Hc) as [-> ->]; exact IH.
Qed.

Lemma lex_clean_tight (x : text) :
  Forall (fun c => clean c = true) x -> lex_run OutTight x = OutTight.
Proof.
  induction 1 as [|c x Hc Hx IH]; [reflexivity|].
  rewrite lex_run_cons; simpl; destruct (clean_eqb c Hc) as [-> _]; rewrite Hc; exact IH.
Qed.

Lemma lex_tight_close (y B : text) :
  Forall (fun c => clean c = true) y -> lex_run OutTight (y ++ dq :: B) = Bad.
Proof. intros Hy; rewrite lex_run_app, lex_clean_tight by exact Hy; exact (lex_run_bad B). Qed.

Lemma lex_instr_close (x R : text) :
  Forall (fun c => clean c = true) x -> lex_run InStr (x ++ dq :: R) = lex_run OutTight R.
Proof. intros Hx; rewrite lex_run_app, lex_clean_instr by exact Hx; reflexivity. Qed.

Lemma lex_triple (st : lexst) (x y B : text) :
  Forall (fun c => clean c = true) x -> Forall (fun c => clean c = true) y ->
  lex_run st (dq :: x ++ dq :: y ++ dq :: B) = Bad.
Proof.
  intros Hx Hy; destruct st.
  - change (lex_run InStr (x ++ dq :: y ++ dq :: B) = Bad).
    rewrite lex_instr_close by exact Hx; apply lex_tight_close, Hy.
  - exact (lex_run_bad _).
  - change (lex_run OutTight (x ++ dq :: y ++ dq :: B) = Bad); apply lex_tight_close, Hx.
  - change (lex_run InStr (x ++ dq :: y ++ dq :: B) = Bad).
    rewrite lex_instr_close by exact Hx; apply lex_tight_close, Hy.
  - apply lex_run_bad.
Qed.

(** A text the scanner reads without error has no quote, clean run,
    quote, clean run, quote. *)
Lemma lex_quote_sound (T : text) : lex_run OutSep T <> Bad -> quote_sound T.
Proof.
  intros H A B x y Hx Hy E; apply H.
  rewrite E, lex_run_app; apply lex_triple; assumption.
Qed.

Lemma dumps_arr_cons (lvl : nat) (x : json) (xs : list json) :
  dumps lvl (JArr (x :: xs)) =
  chr 91 :: nl (S lvl) ++ dumps (S lvl) x ++ flat_map (item_text lvl) xs ++ nl lvl ++ [chr 93].
Proof.
  cbn [dumps].
  match goal with
  | |- _ :: _ ++ _ ++ ?F xs ++ _ = _ =>
      assert (HF : forall ys, F ys = flat_map (item_text lvl) ys);
      [intros ys; induction ys as [|y ys IH]; [reflexivity|];
       cbv beta iota; rewrite IH;
       change (flat_map (item_text lvl) (y :: ys)) with (item_text lvl y ++ flat_map (item_text lvl) ys);
       unfold item_text; rewrite <- !app_comm_cons, <- !app_assoc; reflexivity
      |rewrite HF; reflexivity]
  end.
Qed.

Lemma dumps_obj_cons (lvl : nat) (k : text) (v : json) (kvs : list (text * json)) :
  dumps lvl (JObj ((k, v) :: kvs)) =
  chr 123 :: nl (S lvl) ++ encode_str k ++ s2l ": " ++ dumps (S lvl) v
    ++ flat_map (member_text lvl) kvs ++ nl lvl ++ [chr 125].
Proof.
  cbn [dumps].
  match goal with
  | |- _ :: _ ++ _ ++ _ ++ _ ++ ?F kvs ++ _ = _ =>
      assert (HF : forall ms, F ms = flat_map (member_text lvl) ms);
      [intros ms; induction ms as [|[k' v'] ms IH]; [reflexivity|];
       cbv beta iota; rewrite IH;
       change (flat_map (member_text lvl) ((k', v') :: ms))
         with (member_text lvl (k', v') ++ flat_map (member_text lvl) ms);
       unfold member_text; rewrite <- !app_comm_cons, <- !app_assoc; reflexivity
      |rewrite HF; reflexivity]
  end.
Qed.

Lemma lex_spaces (n : nat) : lex_run OutSep (repeat spc n) = OutSep.
Proof. induction n as [|n IH]; [reflexivity|exact IH]. Qed.

Lemma lex_nl (st : lexst) (lvl : nat) :
  st = OutSep \/ st = OutTight -> lex_run st (nl lvl) = OutSep.
Proof. intros [->| ->]; apply lex_spaces. Qed.

Lemma lex_quote_free (t : text) :
  Forall (fun c => c <> dq) t -> lex_run OutSep t = OutSep.
Proof.
  induction 1 as [|c t Hc Ht IH]; [reflexivity|].
  rewrite lex_run_cons; simpl; rewrite (proj2 (Ascii.eqb_neq c dq) Hc); exact IH.
Qed.

Lemma lex_esc_char (c : ascii) : lex_run InStr (esc_char c) = InStr.
Proof.
  destruct c as [b0 b1 b2 b3 b4 b5 b6 b7].
  destruct b0, b1, b2, b3, b4, b5, b6, b7; vm_compute; reflexivity.
Qed.

Lemma lex_encode_str (s : text) : lex_run OutSep (encode_str s) = OutTight.
Proof.
  unfold encode_str; rewrite lex_run_cons, lex_run_app.
  change (lex_step OutSep dq) with InStr.
  replace (lex_run InStr (flat_map esc_char s)) with InStr; [reflexivity|].
  induction s as [|c s IH]; [reflexivity|].
  simpl; rewrite lex_run_app, lex_esc_char; exact IH.
Qed.

Lemma digit_char_not_dq (n : Z) : digit_char (n mod 10) <> dq.
Proof.
  unfold digit_char.
  assert (Hb : (Z.to_nat (n mod 10) < 10)%nat)
    by (pose proof (Z.mod_pos_bound n 10 ltac:(lia)); lia).
  destruct (Z.to_nat (n mod 10)) as [|[|[|[|[|[|[|[|[|[|k]]]]]]]]]];
    try (intros H; vm_compute in H; discriminate H); lia.
Qed.

Lemma pos_digits_quote_free (fuel : nat) (n : Z) (acc : text) :
  Forall (fun c => c <> dq) acc -> Forall (fun c => c <> dq) (pos_digits fuel n acc).
Proof.
  revert n acc; induction fuel as [|f IH]; intros n acc Hacc; [exact Hacc|].
  simpl; destruct (n <? 10)%Z.
  - constructor; [apply digit_char_not_dq|exact Hacc].
  - apply IH; constructor; [apply digit_char_not_dq|exact Hacc].
Qed.

Lemma py_int_repr_quote_free (z : Z) : Forall (fun c => c <> dq) (py_int_repr z).
Proof.
  destruct z as [|p|p]; simpl.
  - constructor; [intros H; vm_compute in H; discriminate H|constructor].
  - apply pos_digits_quote_free; constructor.
  - constructor; [intros H; vm_compute in H; discriminate H|].
    apply pos_digits_quote_free; constructor.
Qed.

Lemma lex_out_comma (st : lexst) :
  st = OutSep \/ st = OutTight -> lex_step st (chr 44) = OutSep \/ lex_step st (chr 44) = OutTight.
Proof. intros [->| ->]; [left|right]; reflexivity. Qed.

Lemma lex_dumps (j : json) (lvl : nat) :
  lex_run OutSep (dumps lvl j) = OutSep \/ lex_run OutSep (dumps lvl j) = OutTight.
Proof.
  revert lvl; induction j as [| b | z | s | l IH | kvs IH] using json_ind2; intros lvl.
  - left; reflexivity.
  - destruct b; left; reflexivity.
  - left; apply lex_quote_free, py_int_repr_quote_free.
  - right; apply lex_encode_str.
  - destruct l as [|x xs]; [left; reflexivity|].
    inversion IH as [|? ? Hx Hxs]; subst.
    left; rewrite dumps_arr_cons, lex_run_cons.
    change (lex_step OutSep (chr 91)) with OutSep.
    rewrite !lex_run_app, (lex_nl OutSep) by auto.
    assert (Hitems : forall st, st = OutSep \/ st = OutTight ->
              lex_run st (flat_map (item_text lvl) xs) = OutSep \/
              lex_run st (flat_map (item_text lvl) xs) = OutTight).
    { clear Hx IH; induction Hxs as [|y ys Hy Hys IHys]; intros st Hst; [exact Hst|].
      change (flat_map (item_text lvl) (y :: ys)) with (item_text lvl y ++ flat_map (item_text lvl) ys).
      rewrite lex_run_app; apply IHys.
      unfold item_text; rewrite lex_run_cons, lex_run_app, lex_nl by (apply lex_out_comma, Hst).
      apply Hy. }
    rewrite lex_nl by (apply Hitems, Hx); reflexivity.
  - destruct kvs as [|[k v] kvs]; [left; reflexivity|].
    inversion IH as [|? ? Hv Hkvs]; subst; simpl in Hv.
    left; rewrite dumps_obj_cons, lex_run_cons.
    change (lex_step OutSep (chr 123)) with OutSep.
    rewrite !lex_run_app, (lex_nl OutSep), lex_encode_str by auto.
    change (lex_run OutTight (s2l ": ")) with OutSep.
    assert (Hmem : forall st, st = OutSep \/ st = OutTight ->
              lex_run st (flat_map (member_text lvl) kvs) = OutSep \/
              lex_run st (flat_map (member_text lvl) kvs) = OutTight).
    { clear Hv IH; induction Hkvs as [|[k' v'] ms Hm Hms IHms]; intros st Hst; [exact Hst|].
      change (flat_map (member_text lvl) ((k', v') :: ms))
        with (member_text lvl (k', v') ++ flat_map (member_text lvl) ms).
      rewrite lex_run_app; apply IHms.
      unfold member_text; rewrite lex_run_cons, !lex_run_app, lex_nl by (apply lex_out_comma, Hst).
      rewrite lex_encode_str; change (lex_run OutTight (s2l ": ")) with OutSep.
      apply Hm. }
    rewrite lex_nl by (apply Hmem, Hv); reflexivity.
Qed.

Lemma dumps_quote_sound (j : json) (lvl : nat) : quote_sound (dumps lvl j).
Proof.
  apply lex_quote_sound; destruct (lex_dumps j lvl) as [-> | ->]; discriminate.
Qed.

Ltac app_norm := cbn [app]; repeat (rewrite <- app_assoc; cbn [app]).

Lemma flat_map_in {X : Type} (f : X -> text) (l : list X) (x : X) :
  In x l -> exists A B, flat_map f l = A ++ f x ++ B.
Proof.
  induction l as [|y l IH]; intros Hin; [destruct Hin|].
  destruct Hin as [->|Hin].
  - exists [], (flat_map f l); reflexivity.
  - destruct (IH Hin) as [A [B E]]; exists (f y ++ A), B.
    simpl; rewrite E, <- app_assoc; reflexivity.
Qed.

Lemma dumps_obj_member (lvl : nat) (kvs : list (text * json)) (k : text) (v : json) :
  In (k, v) kvs ->
  exists A B, dumps lvl (JObj kvs) = A ++ encode_str k ++ colon :: spc :: dumps (S lvl) v ++ B.
Proof.
  destruct kvs as [|[k0 v0] kvs]; intros Hin; [destruct Hin|].
  rewrite dumps_obj_cons; destruct Hin as [E|Hin].
  - injection E as -> ->.
    exists (chr 123 :: nl (S lvl)), (flat_map (member_text lvl) kvs ++ nl lvl ++ [chr 125]).
    app_norm; reflexivity.
  - destruct (flat_map_in (member_text lvl) kvs (k, v) Hin) as [A [B E]].
    exists (chr 123 :: nl (S lvl) ++ encode_str k0 ++ s2l ": " ++ dumps (S lvl) v0 ++ A
            ++ [chr 44] ++ nl (S lvl)),
           (B ++ nl lvl ++ [chr 125]).
    rewrite E; unfold member_text; app_norm; reflexivity.
Qed.

Lemma dumps_arr_elem (lvl : nat) (xs : list json) (x : json) :
  In x xs -> exists A B, dumps lvl (JArr xs) = A ++ dumps (S lvl) x ++ B.
Proof.
  destruct xs as [|x0 xs]; intros Hin; [destruct Hin|].
  rewrite dumps_arr_cons; destruct Hin as [->|Hin].
  - exists (chr 91 :: nl (S lvl)), (flat_map (item_text lvl) xs ++ nl lvl ++ [chr 93]).
    app_norm; reflexivity.
  - destruct (flat_map_in (item_text lvl) xs x Hin) as [A [B E]].
    exists (chr 91 :: nl (S lvl) ++ dumps (S lvl) x0 ++ A ++ [chr 44] ++ nl (S lvl)),
           (B ++ nl lvl ++ [chr 93]).
    rewrite E; unfold item_text; app_norm; reflexivity.
Qed.

Lemma field_at_within (w T A B : text) : field_at w T -> field_at w (A ++ T ++ B).
Proof.
  intros [A' [B' E]]; exists (A ++ A'), (B' ++ B); rewrite E.
  app_norm; reflexivity.
Qed.

Lemma dumps_series_field (lvl : nat) (s : Series) :
  good_series s = true -> field_at (quoted_placeholder s) (dumps lvl (JObj (series s))).
Proof.
  intros Hs.
  assert (Hin : In (s2l "data", JStr (placeholder (get_name s))) (series s))
    by (right; left; reflexivity).
  destruct (dumps_obj_member lvl _ _ _ Hin) as [A [B E]].
  exists (A ++ encode_str (s2l "data")), B; rewrite E.
  cbn [dumps]; rewrite (encode_str_verbatim (placeholder (get_name s))).
  - rewrite <- app_assoc; reflexivity.
  - apply (Forall_impl _ (fun (c : ascii) (Hc : clean c = true /\ verbatim c = true) => proj2 Hc)).
    apply good_placeholder, Hs.
Qed.

(** ** Dicts *)

Lemma text_eqb_true (a b : text) : text_eqb a b = true <-> a = b.
Proof. unfold text_eqb; destruct (list_eq_dec ascii_dec a b); split; congruence. Qed.

Lemma text_eqb_refl (a : text) : text_eqb a a = true.
Proof. apply text_eqb_true; reflexivity. Qed.

Lemma dict_get_in (k : text) (v : json) (d : dict) : dict_get k d = Some v -> In (k, v) d.
Proof.
  induction d as [|[k' v'] d IH]; simpl; [discriminate|].
  destruct (text_eqb k k') eqn:E.
  - apply text_eqb_true in E as ->; intros H; injection H as ->; left; reflexivity.
  - intros H; right; exact (IH H).
Qed.

Lemma dict_get_set_same (k : text) (v : json) (d : dict) :
  dict_get k (dict_set k v d) = Some v.
Proof.
  induction d as [|[k' v'] d IH]; simpl; [rewrite text_eqb_refl; reflexivity|].
  destruct (text_eqb k k') eqn:E; simpl; rewrite E; [reflexivity|exact IH].
Qed.

Lemma dict_get_set_other (k k' : text) (v : json) (d : dict) :
  text_eqb k k' = false -> dict_get k (dict_set k' v d) = dict_get k d.
Proof.
  intros Hne; induction d as [|[k0 v0] d IH]; simpl; [rewrite Hne; reflexivity|].
  destruct (text_eqb k' k0) eqn:E; simpl.
  - apply text_eqb_true in E as <-; rewrite Hne; reflexivity.
  - destruct (text_eqb k k0); [reflexivity|exact IH].
Qed.

Lemma dict_get_pop_other (k k' : text) (d : dict) :
  text_eqb k k' = false -> dict_get k (dict_pop k' d) = dict_get k d.
Proof.
  intros Hne; induction d as [|[k0 v0] d IH]; simpl; [reflexivity|].
  destruct (text_eqb k' k0) eqn:E; simpl.
  - apply text_eqb_true in E as <-; rewrite Hne; reflexivity.
  - destruct (text_eqb k k0); [reflexivity|exact IH].
Qed.

Lemma dict_get_notin (k : text) (d : dict) : ~ In k (map fst d) -> dict_get k d = None.
Proof.
  induction d as [|[k0 v0] d IH]; simpl; intros Hn; [reflexivity|].
  destruct (text_eqb k k0) eqn:E.
  - apply text_eqb_true in E as ->; exfalso; apply Hn; left; reflexivity.
  - apply IH; intros H; apply Hn; right; exact H.
Qed.

Lemma dict_get_pop_same (k : text) (d : dict) :
  NoDup (map fst d) -> dict_get k (dict_pop k d) = None.
Proof.
  induction d as [|[k0 v0] d IH]; simpl; intros Hd; [reflexivity|].
  inversion Hd as [|? ? Hn Hd']; subst.
  destruct (text_eqb k k0) eqn:E.
  - apply text_eqb_true in E as ->; apply dict_get_notin, Hn.
  - simpl; rewrite E; apply IH, Hd'.
Qed.

Lemma dict_set_keys (k x : text) (v : json) (d : dict) :
  In x (map fst (dict_set k v d)) -> x = k \/ In x (map fst d).
Proof.
  induction d as [|[k0 v0] d IH]; simpl.
  - intros [<-|[]]; left; reflexivity.
  - destruct (text_eqb k k0); simpl; [tauto|].
    intros [H|H]; [right; left; exact H|].
    destruct (IH H); [left|right; right]; assumption.
Qed.

Lemma dict_set_nodup (k : text) (v : json) (d : dict) :
  NoDup (map fst d) -> NoDup (map fst (dict_set k v d)).
Proof.
  induction d as [|[k0 v0] d IH]; simpl; intros Hd.
  - constructor; [intros []|constructor].
  - inversion Hd as [|? ? Hn Hd']; subst.
    destruct (text_eqb k k0) eqn:E; simpl; [exact Hd|].
    constructor; [|apply IH, Hd'].
    intros Hin; destruct (dict_set_keys k k0 v d Hin) as [->|H].
    + rewrite text_eqb_refl in E; discriminate.
    + exact (Hn H).
Qed.

Lemma dict_pop_keys (k x : text) (d : dict) :
  In x (map fst (dict_pop k d)) -> In x (map fst d).
Proof.
  induction d as [|[k0 v0] d IH]; simpl; [tauto|].
  destruct (text_eqb k k0); simpl; [tauto|].
  intros [H|H]; [left; exact H|right; exact (IH H)].
Qed.

Lemma dict_pop_nodup (k : text) (d : dict) :
  NoDup (map fst d) -> NoDup (map fst (dict_pop k d)).
Proof.
  induction d as [|[k0 v0] d IH]; simpl; intros Hd; [exact Hd|].
  inversion Hd as [|? ? Hn Hd']; subst.
  destruct (text_eqb k k0); [exact Hd'|].
  simpl; constructor; [intros H; exact (Hn (dict_pop_keys k k0 d H))|apply IH, Hd'].
Qed.

(** ** Charts built through the public methods *)

Ltac setter_cases :=
  repeat match goal with
         | |- context [match ?j with JNull => _ | _ => _ end] => destruct j
         end.

Lemma reachable_series (c : Chart) :
  reachable c -> dict_get (s2l "series") (ch_chart c) = series_entry (ch_series_instances c).
Proof.
  induction 1 as [| c w Hc IH | c h Hc IH | c t z Hc IH | c t h Hc IH | c t Hc IH
                  | c t Hc IH | c t x Hc IH | c t y Hc IH | c d Hc IH | c d Hc IH
                  | c s Hc IH].
  1: vm_compute; reflexivity.
  1-2: exact IH.
  1-8: unfold set_chart, set_credits, set_title, set_subtitle, set_xaxis, set_yaxis,
         set_tooltip, set_plot_options, with_dict;
       cbn [ch_chart ch_series_instances]; setter_cases;
       cbn [ch_chart ch_series_instances];
       rewrite ?dict_get_set_other, ?dict_get_pop_other by reflexivity; exact IH.
  unfold add_series; cbn [ch_chart ch_series_instances].
  rewrite dict_get_set_same, IH.
  destruct (ch_series_instances c) as [|x l]; [reflexivity|].
  simpl; rewrite map_app; reflexivity.
Qed.

Lemma reachable_nodup (c : Chart) : reachable c -> NoDup (map fst (ch_chart c)).
Proof.
  induction 1 as [| c w Hc IH | c h Hc IH | c t z Hc IH | c t h Hc IH | c t Hc IH
                  | c t Hc IH | c t x Hc IH | c t y Hc IH | c d Hc IH | c d Hc IH
                  | c s Hc IH].
  1: vm_compute; repeat (constructor; [simpl; intuition discriminate|]); constructor.
  1-2: exact IH.
  1-8: unfold set_chart, set_credits, set_title, set_subtitle, set_xaxis, set_yaxis,
         set_tooltip, set_plot_options, with_dict;
       cbn [ch_chart ch_series_instances]; setter_cases;
       cbn [ch_chart ch_series_instances];
       repeat (apply dict_set_nodup || apply dict_pop_nodup); exact IH.
  apply dict_set_nodup, IH.
Qed.

Lemma reachable_has_series (c : Chart) :
  reachable c -> dict_has (s2l "series") (ch_chart c) = match ch_series_instances c with [] => false | _ => true end.
Proof.
  intros Hc; unfold dict_has; rewrite (reachable_series c Hc).
  destruct (ch_series_instances c); reflexivity.
Qed.

Lemma charts_html_raises (idx : nat) (cs : list Chart) (c : Chart) :
  In c cs -> dict_has (s2l "series") (ch_chart c) = false ->
  charts_html idx cs = Raise (Exception no_series_msg).
Proof.
  revert idx; induction cs as [|c0 cs IH]; intros idx Hin Hno; [destruct Hin|].
  simpl; destruct Hin as [->|Hin].
  - unfold get_series_js_var_statements; rewrite Hno; reflexivity.
  - unfold get_series_js_var_statements, to_json_string.
    destruct (dict_has (s2l "series") (ch_chart c0)); [|reflexivity].
    cbn [py_bind]; rewrite (IH (S idx) Hin Hno); reflexivity.
Qed.

(** Each added series' data field stands in the dump as [: "placeholder"]. *)
Lemma reachable_dump_field (c : Chart) (s : Series) :
  reachable c -> In s (ch_series_instances c) -> good_series s = true ->
  field_at (quoted_placeholder s) (dumps 0 (JObj (ch_chart c))).
Proof.
  intros Hc Hin Hs.
  pose proof (reachable_series c Hc) as E.
  destruct (ch_series_instances c) as [|x l] eqn:El; [destruct Hin|].
  cbn [series_entry] in E; rewrite <- El in E.
  destruct (dumps_obj_member 0 _ _ _ (dict_get_in _ _ _ E)) as [A1 [B1 E1]].
  assert (Hx : In (JObj (series s)) (map (fun s => JObj (series s)) (ch_series_instances c)))
    by (apply (in_map (fun s => JObj (series s))); rewrite El; exact Hin).
  destruct (dumps_arr_elem 1 _ _ Hx) as [A2 [B2 E2]].
  rewrite E1, E2.
  destruct (dumps_series_field 2 s Hs) as [A3 [B3 E3]].
  exists (A1 ++ encode_str (s2l "series") ++ [colon; spc] ++ A2 ++ A3), (B3 ++ B2 ++ B1).
  rewrite E3; app_norm; reflexivity.
Qed.

End DumpFacts.

(** * Where one substitution step acts *)
Module TokenFacts.
Import QuickChart JsonText ReplaceFacts DumpFacts.

Lemma first_dq_split (B : text) :
  Forall (fun c => c <> dq) B \/
  exists b1 b2, Forall (fun c => c <> dq) b1 /\ B = b1 ++ dq :: b2.
Proof.
  induction B as [|c B IH]; [left; constructor|].
  destruct (ascii_dec c dq) as [->|Hc].
  - right; exists [], B; split; [constructor|reflexivity].
  - destruct IH as [H|[b1 [b2 [H E]]]].
    + left; constructor; assumption.
    + right; exists (c :: b1), b2; split; [constructor; assumption|rewrite E; reflexivity].
Qed.

Lemma quote_free_not_in (t : text) : Forall (fun c => c <> dq) t -> ~ In dq t.
Proof. intros Ht Hin; rewrite Forall_forall in Ht; exact (Ht dq Hin eq_refl). Qed.

Lemma close_quote_at_end (t A l : text) :
  Forall (fun c => c <> dq) t -> t ++ [dq] = A ++ dq :: l -> A = t /\ l = [].
Proof.
  intros Ht E.
  destruct (first_dq_split A) as [HA|[b1 [b2 [Hb1 EA]]]].
  - pose proof (quote_free_split_eq t A [] l Ht HA E) as <-.
    apply app_inv_head in E; injection E as E; auto.
  - subst A; rewrite <- app_assoc in E; simpl in E.
    pose proof (quote_free_split_eq t b1 [] (b2 ++ dq :: l) Ht Hb1 E) as <-.
    apply app_inv_head in E; injection E as E; destruct b2; discriminate.
Qed.

Section Split.
Variables tok var : text.
Hypothesis Htok : Forall (fun c => c <> dq) tok.

Let old : text := dq :: tok ++ [dq].
Let rep (T : text) : text := replace_from old var 0 T.

Lemma rep_old_any (T : text) : rep (old ++ T) = var ++ rep T.
Proof.
  unfold rep, old.
  change ((dq :: tok ++ [dq]) ++ T) with (dq :: ((tok ++ [dq]) ++ T)).
  rewrite replace_from_cons0.
  pose proof (prefixb_app (dq :: tok ++ [dq]) T) as Hp.
  change ((dq :: tok ++ [dq]) ++ T) with (dq :: ((tok ++ [dq]) ++ T)) in Hp.
  rewrite Hp.
  change (pred (length (dq :: tok ++ [dq]))) with (length (tok ++ [dq])).
  rewrite replace_from_skip; reflexivity.
Qed.

Lemma rep_quote_free_any (u T : text) :
  Forall (fun c => c <> dq) u -> rep (u ++ T) = u ++ rep T.
Proof.
  induction 1 as [|x l Hx Hl IH]; [reflexivity|].
  change (rep (x :: (l ++ T)) = x :: l ++ rep T).
  unfold rep at 1; rewrite replace_from_cons0.
  replace (prefixb old (x :: l ++ T)) with false
    by (unfold old; cbn [prefixb app]; destruct (ascii_dec dq x); [congruence|reflexivity]).
  fold (rep (l ++ T)); rewrite IH; reflexivity.
Qed.

Lemma prefixb_app_mono (p s r : text) : prefixb p s = true -> prefixb p (s ++ r) = true.
Proof. intros H; destruct (prefixb_true _ _ H) as [x ->]; rewrite <- app_assoc; apply prefixb_app. Qed.

(** No match of the search string starts in [A] and ends past it: the
    substitution acts on [A] and on [R] separately. *)
Lemma rep_app (A R : text) :
  (forall A1 A2, A = A1 ++ A2 -> A2 <> [] -> prefixb old (A2 ++ R) = true ->
     prefixb old A2 = true) ->
  rep (A ++ R) = rep A ++ rep R.
Proof.
  induction A as [A IH] using text_len_ind; intros Hns.
  destruct A as [|c A']; [reflexivity|].
  destruct (prefixb old (c :: A')) eqn:Hp.
  - destruct (prefixb_true _ _ Hp) as [A'' E].
    rewrite E, <- app_assoc, !rep_old_any, IH; [rewrite app_assoc; reflexivity| |].
    + rewrite E, length_app; unfold old; simpl; lia.
    + intros A1 A2 EA; apply (Hns (old ++ A1) A2).
      rewrite E, EA, app_assoc; reflexivity.
  - assert (Hp' : prefixb old (c :: A' ++ R) = false).
    { destruct (prefixb old (c :: A' ++ R)) eqn:Hq; [|reflexivity].
      rewrite <- Hp; symmetry; apply (Hns [] (c :: A')); [reflexivity|discriminate|exact Hq]. }
    simpl; unfold rep; rewrite !replace_from_cons0, Hp, Hp'.
    fold (rep (A' ++ R)) (rep A'); rewrite IH; [reflexivity|simpl; lia|].
    intros A1 A2 EA; apply (Hns (c :: A1) A2); rewrite EA; reflexivity.
Qed.

Lemma straddle_cases (A2 R r : text) :
  A2 <> [] -> prefixb old A2 = false -> A2 ++ R = old ++ r ->
  exists l, l <> [] /\ old = A2 ++ l /\ R = l ++ r.
Proof.
  intros Hne Hp E; apply app_eq_app in E as [l [[E1 E2]|[E1 E2]]].
  - pose proof (prefixb_app old l); congruence.
  - exists l; split; [|split; assumption].
    intros ->; rewrite app_nil_r in E1; pose proof (prefixb_app old []) as H.
    rewrite app_nil_r in H; congruence.
Qed.

(** The quoted form is replaced, whatever text precedes it, unless that text
    ends with an unclosed match. *)
Lemma rep_quoted (A B : text) :
  ~ (exists A', A = A' ++ dq :: tok) -> rep (A ++ old ++ B) = rep A ++ var ++ rep B.
Proof.
  intros Hn; rewrite rep_app, rep_old_any; [reflexivity|].
  intros A1 A2 EA Hne Hq.
  destruct (prefixb old A2) eqn:Hp; [reflexivity|exfalso].
  destruct (prefixb_true _ _ Hq) as [r Er].
  destruct (straddle_cases A2 _ r Hne Hp Er) as [[|x l'] [Hl [E1 E2]]]; [contradiction|].
  unfold old in E2; simpl in E2; injection E2 as Ex _; subst x.
  destruct A2 as [|a A2']; [contradiction|].
  unfold old in E1; simpl in E1; injection E1 as Ea E1; subst a.
  destruct (close_quote_at_end tok A2' l' Htok E1) as [-> _].
  apply Hn; exists A1; exact EA.
Qed.

(** A bare occurrence of the token, not both preceded and followed by a
    double quote, splits the substitution. *)
Lemma rep_bare_token (A B : text) :
  ~ (exists A' B', A = A' ++ [dq] /\ B = dq :: B') ->
  rep (A ++ tok ++ B) = rep A ++ tok ++ rep B.
Proof.
  intros Hn; rewrite rep_app.
  - rewrite rep_quote_free_any by exact Htok; reflexivity.
  - intros A1 A2 EA Hne Hq.
    destruct (prefixb old A2) eqn:Hp; [reflexivity|exfalso].
    destruct (prefixb_true _ _ Hq) as [r Er].
    destruct (straddle_cases A2 _ r Hne Hp Er) as [l [Hl [E1 E2]]].
    destruct A2 as [|a A2']; [contradiction|].
    unfold old in E1; simpl in E1; injection E1 as Ea E1; subst a.
    destruct (exists_last Hl) as [l0 [x El]]; subst l.
    rewrite app_assoc in E1; apply app_inj_tail in E1 as [Et Ex]; subst x.
    rewrite <- app_assoc in E2; simpl in E2.
    assert (Hq0 : Forall (fun c => c <> dq) (A2' ++ l0)) by (rewrite <- Et; exact Htok).
    rewrite Et, <- app_assoc in E2.
    destruct (first_dq_split B) as [HB|[b1 [b2 [Hb1 EB]]]].
    + apply (quote_free_not_in (A2' ++ l0 ++ B)).
      * rewrite app_assoc; apply Forall_app; split; assumption.
      * rewrite E2; apply in_or_app; right; left; reflexivity.
    + subst B.
      assert (Hl0 : Forall (fun c => c <> dq) l0) by (apply Forall_app in Hq0; apply Hq0).
      assert (E3 : l0 ++ dq :: r = (A2' ++ l0 ++ b1) ++ dq :: b2)
        by (rewrite <- E2; app_norm; reflexivity).
      assert (Hf : Forall (fun c => c <> dq) (A2' ++ l0 ++ b1))
        by (rewrite app_assoc; apply Forall_app; split; assumption).
      pose proof (quote_free_split_eq l0 (A2' ++ l0 ++ b1) r b2 Hl0 Hf E3) as E4.
      apply (f_equal (@length ascii)) in E4; rewrite !length_app in E4.
      destruct A2' as [|a A2'']; [|simpl in E4; lia].
      destruct b1 as [|b b1']; [|simpl in E4; lia].
      apply Hn; exists A1, b2; split; [exact EA|reflexivity].
Qed.
End Split.

End TokenFacts.

(** * Facts about quick_chart.py *)
Module ChartFacts.
Import QuickChart JsonText ReplaceFacts DumpFacts TokenFacts.

Lemma placeholder_quote_free (n : text) :
  Forall (fun c => c <> dq) n -> Forall (fun c => c <> dq) (placeholder n).
Proof.
  intros Hn; unfold placeholder, replace_space; apply Forall_app; split.
  - apply Forall_map; refine (Forall_impl _ _ Hn); intros c Hc; cbv beta.
    destruct (ascii_dec c spc); [intros H; vm_compute in H; discriminate H|exact Hc].
  - apply Forall_forall; intros c Hc; vm_compute in Hc.
    repeat (destruct Hc as [<-|Hc]; [intros H; vm_compute in H; discriminate H|]); destruct Hc.
Qed.

Lemma data_placeholder_replace_one (T : text) (s : Series) :
  data_placeholder_replace T [s] =
  replace_from (dq :: placeholder (get_name s) ++ [dq]) (javascript_var_name s) 0 T.
Proof. reflexivity. Qed.

Lemma reachable_add_nonempty (c : Chart) (s : Series) :
  ch_series_instances (add_series c s) <> [].
Proof. simpl; destruct (ch_series_instances c); discriminate. Qed.

Lemma to_json_string_reachable (c : Chart) :
  reachable c ->
  to_json_string c =
  match ch_series_instances c with
  | [] => Raise (Exception no_series_msg)
  | _ => Ok (data_placeholder_replace (dumps 0 (JObj (ch_chart c))) (ch_series_instances c))
  end.
Proof.
  intros Hc; unfold to_json_string; rewrite (reachable_has_series c Hc).
  destruct (ch_series_instances c); reflexivity.
Qed.

(** C3: on a chart built through the public methods, [to_json_string]
    raises the "series has not been defined" exception exactly when no
    series was added, and returns a document otherwise; in particular it
    succeeds after any [add_series]. *)
Theorem to_json_string_needs_series (c : Chart) :
  reachable c ->
  (ch_series_instances c = [] -> to_json_string c = Raise (Exception no_series_msg)) /\
  (ch_series_instances c <> [] -> exists js, to_json_string c = Ok js) /\
  (forall s, exists js, to_json_string (add_series c s) = Ok js).
Proof.
  intros Hc; split; [|split].
  - intros E; rewrite (to_json_string_reachable c Hc), E; reflexivity.
  - intros Hne; rewrite (to_json_string_reachable c Hc).
    destruct (ch_series_instances c); [contradiction|eexists; reflexivity].
  - intros s; rewrite (to_json_string_reachable _ (reach_add c s Hc)).
    destruct (ch_series_instances (add_series c s)) eqn:E;
      [exfalso; exact (reachable_add_nonempty c s E)|eexists; reflexivity].
Qed.

Lemma to_json_string_needs_series_witness :
  to_json_string new_chart = Raise (Exception no_series_msg) /\
  exists js, to_json_string (add_series new_chart (new_series (s2l "flux") [] JNull)) = Ok js.
Proof.
  destruct (to_json_string_needs_series new_chart reach_new) as [H1 [_ H3]].
  split; [apply H1; reflexivity|apply H3].
Defined.

(** C10: on a chart built through the public methods,
    [get_series_js_var_statements] raises the same "series has not been
    defined" exception when no series was added, and then [to_html] of any
    page holding the chart raises it too, emitting nothing; otherwise it
    returns one statement [var <name> = <data>;] per added series, in the
    order they were added. *)
Theorem get_series_js_var_statements_spec (c : Chart) :
  reachable c ->
  (ch_series_instances c = [] ->
     get_series_js_var_statements c = Raise (Exception no_series_msg) /\
     forall p, In c (pg_charts p) -> to_html p = Raise (Exception no_series_msg)) /\
  (ch_series_instances c <> [] ->
     get_series_js_var_statements c =
     Ok (map (fun s => s2l "var " ++ javascript_var_name s ++ s2l " = "
                       ++ get_data_as_str s ++ s2l ";")
             (ch_series_instances c))).
Proof.
  intros Hc; pose proof (reachable_has_series c Hc) as Hh; split.
  - intros E; rewrite E in Hh; split.
    + unfold get_series_js_var_statements; rewrite Hh; reflexivity.
    + intros p Hin; unfold to_html; rewrite (charts_html_raises 0 _ c Hin Hh); reflexivity.
  - intros Hne; unfold get_series_js_var_statements.
    destruct (ch_series_instances c) eqn:E; [contradiction|].
    rewrite Hh; reflexivity.
Qed.

Lemma get_series_js_var_statements_spec_witness :
  to_html (add_chart (new_page None) new_chart) = Raise (Exception no_series_msg).
Proof.
  apply (proj2 (proj1 (get_series_js_var_statements_spec new_chart reach_new) eq_refl)).
  left; reflexivity.
Defined.

(** C9 (corrected): passing [None] to [set_subtitle], [set_tooltip] or
    [set_plot_options] removes that key from the chart's dict, while an
    empty value is stored under the key; [set_title], [set_credits],
    [set_xaxis] and [set_yaxis] have no such case: given [None] they keep
    their section, with [None] in its fields. *)
Theorem null_setters (c : Chart) :
  reachable c ->
  dict_get (s2l "subtitle") (ch_chart (set_subtitle c JNull)) = None /\
  dict_get (s2l "tooltip") (ch_chart (set_tooltip c JNull)) = None /\
  dict_get (s2l "plotOptions") (ch_chart (set_plot_options c JNull)) = None /\
  (forall t, t <> JNull ->
     dict_get (s2l "subtitle") (ch_chart (set_subtitle c t)) = Some (JObj [(s2l "text", t)])) /\
  (forall d, d <> JNull -> dict_get (s2l "tooltip") (ch_chart (set_tooltip c d)) = Some d) /\
  (forall d, d <> JNull ->
     dict_get (s2l "plotOptions") (ch_chart (set_plot_options c d)) = Some d) /\
  dict_get (s2l "title") (ch_chart (set_title c JNull)) = Some (JObj [(s2l "text", JNull)]) /\
  dict_get (s2l "credits") (ch_chart (set_credits c JNull JNull)) =
    Some (JObj [(s2l "text", JNull); (s2l "href", JNull)]) /\
  dict_get (s2l "xAxis") (ch_chart (set_xaxis c JNull JNull)) = Some (axis JNull JNull) /\
  dict_get (s2l "yAxis") (ch_chart (set_yaxis c JNull JNull)) = Some (axis JNull JNull).
Proof.
  intros Hc; pose proof (reachable_nodup c Hc) as Hd.
  split; [apply dict_get_pop_same, Hd|].
  split; [apply dict_get_pop_same, Hd|].
  split; [apply dict_get_pop_same, Hd|].
  split; [intros t Ht; destruct t; [contradiction| | | | |]; apply dict_get_set_same|].
  split; [intros t Ht; destruct t; [contradiction| | | | |]; apply dict_get_set_same|].
  split; [intros t Ht; destruct t; [contradiction| | | | |]; apply dict_get_set_same|].
  repeat split; apply dict_get_set_same.
Qed.

Lemma null_setters_witness :
  dict_get (s2l "subtitle") (ch_chart (set_subtitle new_chart JNull)) = None.
Proof. apply (proj1 (null_setters new_chart reach_new)). Defined.

(** C9 counterexample: [set_title] with [None] keeps a ["title"] entry. *)
Lemma null_setters_counterexample :
  reachable (set_title new_chart JNull) /\
  dict_get (s2l "title") (ch_chart (set_title new_chart JNull)) <> None.
Proof. split; [apply reach_title, reach_new|vm_compute; discriminate]. Qed.

(** C2 (code bug): for a chart built through the public methods with at
    least one series, all of whose names are printable ASCII without a
    double quote or a backslash, [to_json_string] returns a document in
    which, for every added series, its JavaScript variable name stands bare
    after a key separator [: ], and its quoted placeholder no longer
    occurs. *)
Theorem to_json_string_substitutes_placeholders (c : Chart) :
  reachable c -> ch_series_instances c <> [] ->
  Forall (fun s => good_series s = true) (ch_series_instances c) ->
  exists js, to_json_string c = Ok js /\
    forall s, In s (ch_series_instances c) ->
      field_at (javascript_var_name s) js /\ ~ infix (quoted_placeholder s) js.
Proof.
  intros Hc Hne HL.
  rewrite (to_json_string_reachable c Hc).
  destruct (ch_series_instances c) as [|x l] eqn:E; [contradiction|].
  eexists; split; [reflexivity|]; rewrite <- E in HL |- *.
  intros s Hin.
  apply (fold_placed _ s _ HL (proj1 (Forall_forall _ _) HL s Hin) (dumps_quote_sound _ 0)).
  - left; apply reachable_dump_field; [exact Hc|exact Hin|].
    exact (proj1 (Forall_forall _ _) HL s Hin).
  - exact Hin.
Qed.

Lemma to_json_string_substitutes_placeholders_witness :
  exists js, to_json_string (add_series new_chart (new_series (s2l "flux") [] JNull)) = Ok js /\
    field_at (s2l "flux_data") js /\ ~ infix (dq :: s2l "flux_placeholder" ++ [dq]) js.
Proof.
  destruct (to_json_string_substitutes_placeholders
              (add_series new_chart (new_series (s2l "flux") [] JNull))
              (reach_add _ _ reach_new) (reachable_add_nonempty _ _)
              ltac:(constructor; [reflexivity|constructor])) as [js [E H]].
  exists js; split; [exact E|].
  exact (H (new_series (s2l "flux") [] JNull) (or_introl eq_refl)).
Defined.

(** C2 counterexample: for a series named [a\b], and for one named
    e-acute (byte 233), the dump escapes the name ([a\\b], [\u00e9]) while
    [data_placeholder_replace] searches for the unescaped quoted
    placeholder; it is not found, and the variable name does not occur in
    the document at all. *)
Lemma to_json_string_substitutes_placeholders_counterexample :
  (exists c js s, reachable c /\ In s (ch_series_instances c) /\
     sr_name s = s2l "a" ++ bsl :: s2l "b" /\
     to_json_string c = Ok js /\ infixb (javascript_var_name s) js = false) /\
  (exists c js s, reachable c /\ In s (ch_series_instances c) /\
     sr_name s = [chr 233] /\
     to_json_string c = Ok js /\ infixb (javascript_var_name s) js = false).
Proof.
  split.
  - exists (add_series new_chart (new_series (s2l "a" ++ bsl :: s2l "b") [] JNull)).
    eexists; exists (new_series (s2l "a" ++ bsl :: s2l "b") [] JNull).
    split; [apply reach_add, reach_new|].
    split; [left; reflexivity|].
    split; [reflexivity|].
    split; [reflexivity|vm_compute; reflexivity].
  - exists (add_series new_chart (new_series [chr 233] [] JNull)).
    eexists; exists (new_series [chr 233] [] JNull).
    split; [apply reach_add, reach_new|].
    split; [left; reflexivity|].
    split; [reflexivity|].
    split; [reflexivity|vm_compute; reflexivity].
Qed.

(** C8 (corrected): the substitution of one series is [str.replace] of its
    quoted placeholder: the quoted form is replaced wherever it stands,
    unless the text before it ends in an open match (a double quote and the
    token), even when its opening quote closes a longer string; and an
    occurrence of the bare token that is not both preceded and followed by a
    double quote is kept, the substitution acting on the text before it and
    after it separately. *)
Theorem data_placeholder_replace_literal_only (s : Series) (A B : text) :
  Forall (fun c => c <> dq) (sr_name s) ->
  ((~ exists A', A = A' ++ dq :: placeholder (get_name s)) ->
     data_placeholder_replace (A ++ quoted_placeholder s ++ B) [s] =
     data_placeholder_replace A [s] ++ javascript_var_name s ++ data_placeholder_replace B [s]) /\
  ((~ exists A' B', A = A' ++ [dq] /\ B = dq :: B') ->
     data_placeholder_replace (A ++ placeholder (get_name s) ++ B) [s] =
     data_placeholder_replace A [s] ++ placeholder (get_name s) ++ data_placeholder_replace B [s]).
Proof.
  intros Hn; pose proof (placeholder_quote_free _ Hn) as Hp.
  rewrite !data_placeholder_replace_one; split.
  - apply (rep_quoted _ _ Hp).
  - apply (rep_bare_token _ _ Hp).
Qed.

Lemma data_placeholder_replace_literal_only_witness :
  data_placeholder_replace (s2l "ab" ++ s2l "s_placeholder" ++ s2l "cd")
    [new_series (s2l "s") [] JNull] = s2l "ab" ++ s2l "s_placeholder" ++ s2l "cd".
Proof.
  assert (Hn : Forall (fun c => c <> dq) (sr_name (new_series (s2l "s") [] JNull)))
    by (constructor; [intros H; vm_compute in H; discriminate H|constructor]).
  assert (Hb : ~ exists A' B', s2l "ab" = A' ++ [dq] /\ s2l "cd" = dq :: B').
  { intros [A' [B' [E _]]]; apply (f_equal (@rev ascii)) in E.
    rewrite rev_app_distr in E; vm_compute in E; discriminate E. }
  change (s2l "s_placeholder") with (placeholder (get_name (new_series (s2l "s") [] JNull))).
  rewrite (proj2 (data_placeholder_replace_literal_only _ _ _ Hn) Hb).
  vm_compute; reflexivity.
Defined.

(** C8 counterexample: a title containing a double quote followed by the
    token is dumped as an escaped quote and the token, which the
    substitution rewrites: the token is gone from the document and the title
    now reads [say \s_data]. *)
Lemma data_placeholder_replace_literal_only_counterexample :
  exists c js,
    reachable c /\
    dict_get (s2l "title") (ch_chart c) =
      Some (JObj [(s2l "text", JStr (s2l "say " ++ dq :: s2l "s_placeholder"))]) /\
    to_json_string c = Ok js /\
    infixb (s2l "s_placeholder") js = false /\
    infixb (s2l "say " ++ bsl :: s2l "s_data") js = true.
Proof.
  exists (set_title (add_series new_chart (new_series (s2l "s") [] JNull))
            (JStr (s2l "say " ++ dq :: s2l "s_placeholder"))).
  eexists; split; [apply reach_title, reach_add, reach_new|].
  split; [vm_compute; reflexivity|].
  split; [reflexivity|split; vm_compute; reflexivity].
Qed.

End ChartFacts.

(** * The application layer of flux_densities.py *)
Module FluxAppFacts.
Import Flux QuickChart FluxApp FluxFacts DumpFacts ChartFacts.
Open Scope R_scope.

(** ** [get_jy] on a known source *)

(** Every coefficient of the catalog lies in [-4, 4]. *)
Lemma table_coeffs_bound (e : SourceCoeffs) :
  In e _COEFF_TABLE ->
  Rabs (a0 e) <= 4 /\ Rabs (a1 e) <= 4 /\ Rabs (a2 e) <= 4 /\
  Rabs (a3 e) <= 4 /\ Rabs (a4 e) <= 4 /\ Rabs (a5 e) <= 4.
Proof.
  intros He; simpl in He.
  repeat (destruct He as [<-|He];
          [cbn [a0 a1 a2 a3 a4 a5]; repeat split; apply Rabs_le; lra|]).
  contradiction.
Qed.

Lemma term_bound (a y c : R) : Rabs a <= 4 -> Rabs y <= c -> - (4 * c) <= a * y <= 4 * c.
Proof.
  intros Ha Hy.
  assert (H : Rabs (a * y) <= 4 * c)
    by (rewrite Rabs_mult; apply Rmult_le_compat; auto using Rabs_pos).
  pose proof (Rle_abs (a * y)); pose proof (Rle_abs (- (a * y))).
  rewrite Rabs_Ropp in *; lra.
Qed.

Lemma ln_mono (x y : R) : 0 < x -> x <= y -> ln x <= ln y.
Proof.
  intros Hx Hxy; destruct (Rle_lt_or_eq_dec _ _ Hxy) as [Hlt|<-]; [|lra].
  left; apply ln_increasing; assumption.
Qed.

(** Between 10 MHz and 100 GHz, [|log10 f| <= 2]. *)
Lemma log10_range (f : R) : 0.01 <= f <= 100 -> Rabs (ln f / ln 10) <= 2.
Proof.
  intros Hf; pose proof ln10_pos as H10.
  assert (Hhi : ln f <= 2 * ln 10).
  { replace (2 * ln 10) with (ln (10 * 10)) by (rewrite ln_mult; lra).
    apply ln_mono; lra. }
  assert (Hlo : - (2 * ln 10) <= ln f).
  { replace (- (2 * ln 10)) with (ln (/ (10 * 10))) by (rewrite ln_Rinv, ln_mult; lra).
    apply ln_mono; [apply Rinv_0_lt_compat; lra|].
    replace (/ (10 * 10)) with 0.01 by lra; lra. }
  apply Rabs_le; split.
  - apply Rmult_le_reg_r with (ln 10); [exact H10|].
    unfold Rdiv; rewrite Rmult_assoc, Rinv_l by lra; lra.
  - apply Rmult_le_reg_r with (ln 10); [exact H10|].
    unfold Rdiv; rewrite Rmult_assoc, Rinv_l by lra; lra.
Qed.

(** A catalog source between 10 MHz and 100 GHz has an exponent in
    [-252, 252], so [get_jy] returns a positive flux. *)
Lemma get_jy_known_range (s : string) (e : SourceCoeffs) (f : R) :
  get_source_coeffs s = Some e -> 0.01 <= f <= 100 ->
  exists v, get_jy s f = Ok (Some v) /\ 0 < v.
Proof.
  intros Hs Hf; unfold get_jy; rewrite Hs.
  rewrite math_log_pos by lra; cbn [py_bind]; unfold pow_int.
  destruct (find_coeffs_in _ _ _ Hs) as [He _].
  destruct (table_coeffs_bound e He) as [B0 [B1 [B2 [B3 [B4 B5]]]]].
  set (x := ln f / ln 10).
  assert (Hx : Rabs x <= 2) by (apply log10_range, Hf).
  assert (Hpow : forall n, Rabs (x ^ n) <= 2 ^ n) 
    by (intros n; rewrite <- RPow_abs; apply pow_incr; split; [apply Rabs_pos|exact Hx]).
  set (p := a0 e + a1 e * x + a2 e * x ^ 2 + a3 e * x ^ 3 + a4 e * x ^ 4 + a5 e * x ^ 5).
  assert (Hp' : -252 <= p <= 252).
  { unfold p.
    pose proof (Rabs_pos (a0 e)); pose proof (Rle_abs (a0 e)).
    pose proof (Rle_abs (- a0 e)); rewrite Rabs_Ropp in *.
    pose proof (term_bound _ _ _ B1 Hx) as T1.
    pose proof (term_bound _ _ _ B2 (Hpow 2%nat)) as T2.
    pose proof (term_bound _ _ _ B3 (Hpow 3%nat)) as T3.
    pose proof (term_bound _ _ _ B4 (Hpow 4%nat)) as T4.
    pose proof (term_bound _ _ _ B5 (Hpow 5%nat)) as T5.
    replace (2 ^ 2) with 4 in T2 by (simpl; lra).
    replace (2 ^ 3) with 8 in T3 by (simpl; lra).
    replace (2 ^ 4) with 16 in T4 by (simpl; lra).
    replace (2 ^ 5) with 32 in T5 by (simpl; lra).
    lra. }
  destruct (in_float_range p ltac:(lra)) as [Hu Ho].
  unfold pow10.
  destruct (Rle_dec float_overflow (Rpower 10 p)); [lra|].
  destruct (Rle_dec (Rpower 10 p) float_underflow); [lra|].
  eexists; split; [reflexivity|]; unfold Rpower; apply exp_pos.
Qed.

Lemma get_jy_known_nonpos (s : string) (e : SourceCoeffs) (f : R) :
  get_source_coeffs s = Some e -> f <= 0 -> get_jy s f = Raise ValueError.
Proof.
  intros Hs Hf; unfold get_jy; rewrite Hs.
  rewrite math_log_nonpos by exact Hf; reflexivity.
Qed.

Lemma get_jy_unknown (s : string) (f : R) :
  get_source_coeffs s = None -> get_jy s f = Ok None.
Proof. intros Hs; unfold get_jy; rewrite Hs; reflexivity. Qed.

Lemma known_3C48 : get_source_coeffs "3C48"%string <> None.
Proof.
  unfold get_source_coeffs.
  rewrite (find_coeffs_unique _COEFF_TABLE "3C48"%string
             (mkSourceCoeffs "3C48" 1.3253 (-0.7553) (-0.1914) 0.0498 0.0 0.0 3.1 0.05 50)
             table_lower_names_nodup ltac:(simpl; tauto) eq_refl).
  discriminate.
Qed.

Lemma unknown_Sun : get_source_coeffs "Sun"%string = None.
Proof.
  apply find_coeffs_none.
  intros e He; simpl in He.
  repeat (destruct He as [<-|He]; [vm_compute; discriminate|]); contradiction.
Qed.

(** ** [_frange] *)

Lemma frange_det (v stop step : float) (l1 l2 : list float) :
  _frange v stop step l1 -> _frange v stop step l2 -> l1 = l2.
Proof.
  intros H1; revert l2; induction H1 as [v stop step Hlt|v stop step l Hle H IH];
    intros l2 H2; inversion H2; subst; try congruence.
  f_equal; apply IH; assumption.
Qed.

Lemma frange_nil (v stop step : float) (l : list float) :
  _frange v stop step l -> (l = [] <-> (v <=? stop)%float = false).
Proof.
  intros H; inversion H; subst; split; intros; auto; congruence.
Qed.







(** ** [create_chart] *)

Section Charts.
Variable float_fmt : nat -> R -> pynum.

Lemma source_data_known (s : string) (e : SourceCoeffs) (freqs : list R) :
  get_source_coeffs s = Some e -> Forall (fun f => 0.01 <= f <= 100) freqs ->
  exists pts, source_data float_fmt s freqs = AOk pts /\ length pts = length freqs.
Proof.
  intros Hs; induction freqs as [|f freqs IH]; intros Hf; [exists []; auto|].
  inversion Hf as [|? ? Hf0 Hf']; subst.
  destruct (get_jy_known_range s e f Hs Hf0) as [v [Hv _]].
  destruct (IH Hf') as [pts [Hp Hl]].
  exists ([float_fmt 4 f; float_fmt 7 v] :: pts).
  simpl; unfold freq_flux; rewrite Hv; simpl; rewrite Hp; simpl; auto.
Qed.

Lemma source_data_unknown (s : string) (freqs : list R) :
  get_source_coeffs s = None -> freqs <> [] ->
  source_data float_fmt s freqs = ARaise TypeError.
Proof.
  intros Hs Hne; destruct freqs as [|f freqs]; [contradiction|].
  simpl; unfold freq_flux; rewrite get_jy_unknown by exact Hs; reflexivity.
Qed.


Lemma sources_data_known (sources : list string) (freqs : list R) :
  Forall (fun s => get_source_coeffs s <> None) sources ->
  Forall (fun f => 0.01 <= f <= 100) freqs ->
  exists data, sources_data float_fmt sources freqs = AOk data /\ map fst data = sources /\
    Forall (fun sd => length (snd sd) = length freqs) data.
Proof.
  intros Hs Hf; induction Hs as [|s sources Hs0 Hs IH]; [exists []; auto|].
  destruct (get_source_coeffs s) as [e|] eqn:E; [|contradiction].
  destruct (source_data_known s e freqs E Hf) as [pts [Hp Hl]].
  destruct IH as [data [Hd [Hm Hls]]].
  exists ((s, pts) :: data); simpl; rewrite Hp; simpl; rewrite Hd; simpl.
  split; [reflexivity|split; [rewrite Hm; reflexivity|constructor; auto]].
Qed.

Lemma sources_data_unknown (sources : list string) (freqs : list R) :
  Forall (fun f => 0.01 <= f <= 100) freqs -> freqs <> [] ->
  Exists (fun s => get_source_coeffs s = None) sources ->
  sources_data float_fmt sources freqs = ARaise TypeError.
Proof.
  intros Hf Hne; induction sources as [|s sources IH]; intros Hex;
    [inversion Hex|].
  simpl; destruct (get_source_coeffs s) as [e|] eqn:E.
  - destruct (source_data_known s e freqs E Hf) as [pts [Hp _]]; rewrite Hp; simpl.
    inversion Hex as [? ? H|? ? H]; subst; [congruence|rewrite IH by exact H; reflexivity].
  - rewrite source_data_unknown by assumption; reflexivity.
Qed.

Lemma sources_data_nil_freqs (sources : list string) :
  sources_data float_fmt sources [] = AOk (map (fun s => (s, [])) sources).
Proof. induction sources as [|s sources IH]; simpl; [|rewrite IH]; reflexivity. Qed.

Lemma create_chart_eq (freqs : list R) (sources : list string) (y_axis_linear : bool) :
  create_chart float_fmt freqs sources y_axis_linear =
  app_bind (sources_data float_fmt sources freqs)
    (fun data => AOk (add_data (configured sources y_axis_linear) data)).
Proof. reflexivity. Qed.

Lemma configured_reachable (sources : list string) (y_axis_linear : bool) :
  reachable (configured sources y_axis_linear).
Proof.
  unfold configured.
  apply reach_height, reach_width.
  destruct sources as [|s [|s' sources]]; apply reach_tooltip;
    (destruct y_axis_linear; apply reach_yaxis);
    apply reach_xaxis, reach_subtitle, reach_title, reach_new.
Qed.

Lemma configured_instances (sources : list string) (y_axis_linear : bool) :
  ch_series_instances (configured sources y_axis_linear) = [].
Proof. destruct sources as [|s [|s' sources]], y_axis_linear; reflexivity. Qed.

Lemma configured_size (sources : list string) (y_axis_linear : bool) :
  ch_width (configured sources y_axis_linear) = 800%Z /\
  ch_height (configured sources y_axis_linear) = 500%Z.
Proof. split; reflexivity. Qed.

Lemma add_data_props (c : Chart) (data : list (string * list (list pynum))) :
  reachable c ->
  reachable (add_data c data) /\
  ch_series_instances (add_data c data) =
    ch_series_instances c ++ map (fun sd => new_series (s2l (fst sd)) (snd sd) marker) data /\
  ch_width (add_data c data) = ch_width c /\ ch_height (add_data c data) = ch_height c /\
  (forall k, text_eqb k (s2l "series") = false ->
             dict_get k (ch_chart (add_data c data)) = dict_get k (ch_chart c)).
Proof.
  unfold add_data; revert c; induction data as [|sd data IH]; intros c Hc.
  - simpl; rewrite app_nil_r; auto.
  - simpl; destruct (IH _ (reach_add c (new_series (s2l (fst sd)) (snd sd) marker) Hc)) as [H1 [H2 [H3 [H4 H5]]]].
    split; [exact H1|split; [|split; [exact H3|split; [exact H4|]]]].
    + rewrite H2; simpl; rewrite <- app_assoc; reflexivity.
    + intros k Hk; rewrite H5 by exact Hk; simpl.
      apply dict_get_set_other, Hk.
Qed.

End Charts.

(** ** [main] *)

Lemma get_sources_map : get_sources = map name _COEFF_TABLE.
Proof. reflexivity. Qed.

Lemma lowercase_known (s : string) :
  existsb (String.eqb (py_lower s)) sources_lowercase = true <-> get_source_coeffs s <> None.
Proof.
  unfold sources_lowercase; rewrite get_sources_map, map_map, existsb_exists; split.
  - intros [x [Hx Heq]]; apply in_map_iff in Hx; destruct Hx as [e [<- He]].
    apply String.eqb_eq in Heq.
    unfold get_source_coeffs.
    rewrite (find_coeffs_unique _COEFF_TABLE s e table_lower_names_nodup He Heq); discriminate.
  - intros Hs; destruct (get_source_coeffs s) as [e|] eqn:E; [|contradiction].
    destruct (find_coeffs_in _ _ _ E) as [He Hl].
    exists (py_lower (name e)); split; [apply in_map_iff; exists e; auto|].
    apply String.eqb_eq; symmetry; exact Hl.
Qed.

Lemma first_invalid_known (sources : list string) :
  first_invalid sources = None <-> Forall (fun s => get_source_coeffs s <> None) sources.
Proof.
  induction sources as [|s sources IH]; cbn [first_invalid]; [split; auto|].
  destruct (existsb (String.eqb (py_lower s)) sources_lowercase) eqn:E.
  - rewrite IH; split; [intros H; constructor; [apply lowercase_known, E|exact H]|].
    intros H; inversion H; assumption.
  - split; [discriminate|]; intros H; inversion H as [|? ? H0]; subst.
    apply lowercase_known in H0; congruence.
Qed.

Lemma first_invalid_first (pre post : list string) (s : string) :
  Forall (fun x => get_source_coeffs x <> None) pre -> get_source_coeffs s = None ->
  first_invalid (pre ++ s :: post) = Some s.
Proof.
  intros Hpre Hs; induction Hpre as [|x pre Hx Hpre IH]; cbn [app first_invalid].
  - destruct (existsb (String.eqb (py_lower s)) sources_lowercase) eqn:E; [|reflexivity].
    apply lowercase_known in E; contradiction.
  - apply lowercase_known in Hx; rewrite Hx; exact IH.
Qed.

Lemma py_split_aux_nonempty (sep : ascii) (cur s : string) : py_split_aux sep cur s <> [].
Proof.
  revert cur; induction s as [|c s IH]; intros cur; simpl; [discriminate|].
  destruct (Ascii.eqb c sep); [discriminate|apply IH].
Qed.

Lemma main_sources_nonempty (args : Args) (sources : list string) :
  main_sources args = AOk sources -> sources <> [].
Proof.
  unfold main_sources, py_split.
  destruct (py_split_aux (chr 44) EmptyString (py_join " " (arg_source args))) as [|s0 r] eqn:E.
  - discriminate.
  - destruct (list_eq_dec Nat.eq_dec (py_upper s0) [65; 76; 76]%nat);
      intros H; injection H as <-; [discriminate|discriminate].
Qed.

Lemma py_upper_char_in (c : ascii) (s : string) :
  In c (list_ascii_of_string s) -> forall n, In n (py_upper_char c) -> In n (py_upper s).
Proof.
  induction s as [|c' s IH]; simpl; [tauto|].
  intros [<-|H] n Hn; apply in_or_app; [left; exact Hn|right; exact (IH H n Hn)].
Qed.

Lemma upper_all_no_comma (s : string) :
  py_upper s = [65; 76; 76]%nat -> ~ In (chr 44) (list_ascii_of_string s).
Proof.
  intros Hu Hin; pose proof (py_upper_char_in _ _ Hin 44%nat) as H.
  rewrite Hu in H; simpl in H; intuition discriminate.
Qed.

Lemma str_app_nil_r (s : string) : (s ++ EmptyString)%string = s.
Proof. induction s as [|c s IH]; simpl; [|rewrite IH]; reflexivity. Qed.

Lemma str_app_assoc (a b c : string) : (a ++ (b ++ c))%string = ((a ++ b) ++ c)%string.
Proof. induction a as [|x a IH]; simpl; [|rewrite IH]; reflexivity. Qed.

Lemma py_split_aux_app (sep : ascii) (cur s u : string) :
  ~ In sep (list_ascii_of_string s) ->
  py_split_aux sep cur (s ++ String sep u) = (cur ++ s)%string :: py_split_aux sep EmptyString u.
Proof.
  revert cur; induction s as [|c s IH]; intros cur Hn; simpl.
  - rewrite Ascii.eqb_refl, str_app_nil_r; reflexivity.
  - simpl in Hn; destruct (Ascii.eqb_spec c sep) as [->|Hne]; [tauto|].
    rewrite IH by tauto; rewrite <- str_app_assoc; reflexivity.
Qed.

Lemma py_split_aux_noseq (sep : ascii) (cur s : string) :
  ~ In sep (list_ascii_of_string s) -> py_split_aux sep cur s = [(cur ++ s)%string].
Proof.
  revert cur; induction s as [|c s IH]; intros cur Hn; simpl.
  - rewrite str_app_nil_r; reflexivity.
  - simpl in Hn; destruct (Ascii.eqb_spec c sep) as [->|Hne]; [tauto|].
    rewrite IH by tauto; rewrite <- str_app_assoc; reflexivity.
Qed.

Lemma flux_lines_known (sources : list string) (f : R) :
  Forall (fun s => get_source_coeffs s <> None) sources -> 10 <= f <= 100000 ->
  exists fluxes, Forall2 (fun s v => get_jy s (f / 1000) = Ok (Some v) /\ 0 < v) sources fluxes /\
    flux_lines sources f = (map (fun sv => PrintFlux (fst sv) f (snd sv)) (combine sources fluxes), None).
Proof.
  intros Hs Hf; induction Hs as [|s sources Hs0 Hs IH]; [exists []; split; constructor|].
  destruct (get_source_coeffs s) as [e|] eqn:E; [|contradiction].
  destruct (get_jy_known_range s e (f / 1000) E ltac:(lra)) as [v [Hv Hvp]].
  destruct IH as [fluxes [H2 Hl]].
  exists (v :: fluxes); split; [constructor; auto|].
  simpl; rewrite Hv, Hl; reflexivity.
Qed.

Lemma flux_lines_nonpos (s : string) (sources : list string) (f : R) :
  get_source_coeffs s <> None -> f <= 0 ->
  flux_lines (s :: sources) f = ([], Some (PyErr ValueError)).
Proof.
  intros Hs Hf; simpl.
  destruct (get_source_coeffs s) as [e|] eqn:E; [|contradiction].
  rewrite (get_jy_known_nonpos s e (f / 1000) E) by (unfold Rdiv; nra); reflexivity.
Qed.

End FluxAppFacts.

(** * Properties of flux_densities.py beyond the specification *)
Module FluxAppExtras.
Import Flux QuickChart FluxApp FluxFacts ChartFacts FluxAppFacts.
Open Scope R_scope.

(** [get_jy] of a catalog source at a frequency between 10 MHz and
    100 GHz neither overflows nor underflows: its exponent lies in
    [-252, 252] and it returns a positive flux. *)
Theorem get_jy_positive (source : string) (freq_ghz : R) :
  get_source_coeffs source <> None -> 0.01 <= freq_ghz <= 100 ->
  exists flux, get_jy source freq_ghz = Ok (Some flux) /\ 0 < flux.
Proof.
  intros Hs Hf; destruct (get_source_coeffs source) as [e|] eqn:E; [|contradiction].
  exact (get_jy_known_range source e freq_ghz E Hf).
Qed.

Lemma get_jy_positive_witness :
  exists flux, get_jy "3C48" 2 = Ok (Some flux) /\ 0 < flux.
Proof.
  apply get_jy_positive; [|lra].
  exact known_3C48.
Defined.





Lemma create_chart_ok_known (float_fmt : nat -> R -> pynum) (sources : list string)
  (freqs : list R) (y_axis_linear : bool) :
  Forall (fun f => 0.01 <= f <= 100) freqs ->
  Forall (fun s => get_source_coeffs s <> None) sources ->
  exists c, create_chart float_fmt freqs sources y_axis_linear = AOk c.
Proof.
  intros Hf Hs.
  destruct (sources_data_known float_fmt sources freqs Hs Hf) as [data [Hd _]].
  rewrite create_chart_eq, Hd; eexists; reflexivity.
Qed.

(** [create_chart] on catalog sources and frequencies between 10 MHz and
    100 GHz returns a chart built through the public methods, 800 by 500
    pixels, with one series per source, named after it, in the given
    order, each with one data point per frequency; when the list of
    sources is not empty, the chart serializes. *)
Theorem create_chart_known_sources (float_fmt : nat -> R -> pynum) (sources : list string)
  (freqs : list R) (y_axis_linear : bool) :
  Forall (fun f => 0.01 <= f <= 100) freqs ->
  Forall (fun s => get_source_coeffs s <> None) sources ->
  exists c, create_chart float_fmt freqs sources y_axis_linear = AOk c /\
    reachable c /\ ch_width c = 800%Z /\ ch_height c = 500%Z /\
    map get_name (ch_series_instances c) = map s2l sources /\
    Forall (fun s => length (sr_data s) = length freqs) (ch_series_instances c) /\
    (sources <> [] -> exists js, to_json_string c = Ok js).
Proof.
  intros Hf Hs.
  destruct (sources_data_known float_fmt sources freqs Hs Hf) as [data [Hd [Hm Hl]]].
  rewrite create_chart_eq, Hd; cbn [app_bind].
  destruct (add_data_props (configured sources y_axis_linear) data
              (configured_reachable sources y_axis_linear)) as [H1 [H2 [H3 [H4 _]]]].
  eexists; split; [reflexivity|].
  split; [exact H1|].
  rewrite H3, H4; split; [reflexivity|split; [reflexivity|]].
  rewrite H2, configured_instances; cbn [app].
  split; [rewrite map_map, <- Hm, map_map; reflexivity|].
  split.
  - apply Forall_map; eapply Forall_impl; [|exact Hl]; simpl; auto.
  - intros Hne; rewrite (to_json_string_reachable _ H1), H2, configured_instances.
    destruct data as [|sd data]; [subst sources; contradiction|].
    eexists; reflexivity.
Qed.

Lemma create_chart_known_sources_witness :
  exists c, create_chart (fun _ _ => PyInt 0) [1; 2] ["3C48"%string] true = AOk c /\
    reachable c /\ ch_width c = 800%Z /\ ch_height c = 500%Z /\
    map get_name (ch_series_instances c) = map s2l ["3C48"%string] /\
    Forall (fun s => length (sr_data s) = length [1; 2]) (ch_series_instances c) /\
    (["3C48"%string] <> [] -> exists js, to_json_string c = Ok js).
Proof.
  apply create_chart_known_sources.
  - constructor; [lra|constructor; [lra|constructor]].
  - constructor; [|constructor].
    exact known_3C48.
Defined.

(** The chart [create_chart] returns is titled with the source name when
    there is exactly one source and [Multiple Sources] otherwise; its y
    axis is linear when [y_axis_linear] is true and logarithmic otherwise,
    and its x axis is logarithmic. *)
Theorem create_chart_config (float_fmt : nat -> R -> pynum) (freqs : list R)
  (sources : list string) (y_axis_linear : bool) (c : Chart) :
  create_chart float_fmt freqs sources y_axis_linear = AOk c ->
  dict_get (s2l "title") (ch_chart c) =
    Some (JObj [(s2l "text", JStr (match sources with
                                   | [s] => s2l s
                                   | _ => s2l "Multiple Sources" end))]) /\
  dict_get (s2l "yAxis") (ch_chart c) =
    Some (axis (JStr (if y_axis_linear then s2l "linear" else s2l "logarithmic"))
               (JStr (s2l "Jy"))) /\
  dict_get (s2l "xAxis") (ch_chart c) =
    Some (axis (JStr (s2l "logarithmic")) (JStr (s2l "Frequency in GHz"))).
Proof.
  rewrite create_chart_eq.
  destruct (sources_data float_fmt sources freqs) as [data|e]; cbn [app_bind];
    [|discriminate].
  intros H; injection H as <-.
  destruct (add_data_props (configured sources y_axis_linear) data
              (configured_reachable sources y_axis_linear)) as [_ [_ [_ [_ H5]]]].
  rewrite !H5 by reflexivity.
  destruct sources as [|s [|s' sources]], y_axis_linear; vm_compute; auto.
Qed.

Lemma create_chart_config_witness :
  dict_get (s2l "title")
    (ch_chart (add_data (configured ["3C48"%string] false) [("3C48"%string, [])])) =
    Some (JObj [(s2l "text", JStr (s2l "3C48"))]).
Proof.
  apply (proj1 (create_chart_config (fun _ _ => PyInt 0) [] ["3C48"%string] false _ eq_refl)).
Defined.

(** When the frequencies are not empty and lie between 10 MHz and
    100 GHz, [create_chart] raises [TypeError] as soon as the list of
    sources holds a name that is not in the catalog: its flux [None] is
    formatted as a float. *)
Theorem create_chart_unknown_source (float_fmt : nat -> R -> pynum) (sources : list string)
  (freqs : list R) (y_axis_linear : bool) :
  Forall (fun f => 0.01 <= f <= 100) freqs -> freqs <> [] ->
  Exists (fun s => get_source_coeffs s = None) sources ->
  create_chart float_fmt freqs sources y_axis_linear = ARaise TypeError.
Proof.
  intros Hf Hne Hex.
  rewrite create_chart_eq, sources_data_unknown by assumption.
  reflexivity.
Qed.

Lemma create_chart_unknown_source_witness :
  create_chart (fun _ _ => PyInt 0) [1] ["3C48"; "Sun"]%string true = ARaise TypeError.
Proof.
  apply create_chart_unknown_source; [constructor; [lra|constructor]|discriminate|].
  apply Exists_cons_tl, Exists_cons_hd; exact unknown_Sun.
Defined.

(** When [minx <= maxx] is false, [create_chart] computes no flux at all:
    it succeeds for any names, catalog sources or not, with one empty
    series per name. *)
Theorem create_chart_empty_range (float_fmt : nat -> R -> pynum) (sources : list string)
  (minx maxx : float) (fl : list float) (freqs : list R) (y_axis_linear : bool) :
  _frange minx maxx 0.01 fl -> (minx <=? maxx)%float = false -> frange_values fl freqs ->
  exists c, create_chart float_fmt freqs sources y_axis_linear = AOk c /\
    map get_name (ch_series_instances c) = map s2l sources /\
    Forall (fun s => sr_data s = []) (ch_series_instances c).
Proof.
  intros Hfr Hlt Hv.
  rewrite (proj2 (frange_nil _ _ _ _ Hfr) Hlt) in Hv.
  inversion Hv; subst.
  rewrite create_chart_eq, sources_data_nil_freqs; cbn [app_bind].
  destruct (add_data_props (configured sources y_axis_linear) (map (fun s => (s, [])) sources)
              (configured_reachable sources y_axis_linear)) as [_ [H2 _]].
  eexists; split; [reflexivity|].
  rewrite H2, configured_instances; cbn [app]; rewrite !map_map; split.
  - reflexivity.
  - apply Forall_forall; intros s Hs; apply in_map_iff in Hs.
    destruct Hs as [x [<- _]]; reflexivity.
Qed.

Lemma create_chart_empty_range_witness :
  exists c, create_chart (fun _ _ => PyInt 0) [] ["Sun"%string] false = AOk c /\
    map get_name (ch_series_instances c) = map s2l ["Sun"%string] /\
    Forall (fun s => sr_data s = []) (ch_series_instances c).
Proof.
  apply (create_chart_empty_range _ _ 2 1 []); [constructor; vm_compute; reflexivity|
                                               vm_compute; reflexivity|constructor].
Defined.



(** [create_chart] with an empty list of sources returns a chart titled
    [Multiple Sources] with no series, whose serialization raises the
    no-series exception. *)
Theorem create_chart_no_sources (float_fmt : nat -> R -> pynum) (freqs : list R)
  (y_axis_linear : bool) :
  exists c, create_chart float_fmt freqs [] y_axis_linear = AOk c /\
    ch_series_instances c = [] /\
    to_json_string c = Raise (Exception no_series_msg).
Proof.
  eexists; split; [reflexivity|].
  split; [destruct y_axis_linear; reflexivity|].
  destruct y_axis_linear; vm_compute; reflexivity.
Qed.

(** [main] with no positional source name, whatever the options (even
    [--list]), prints the error for the empty name and the catalog names,
    and exits with status 0. *)
Theorem main_without_source (float_fmt : nat -> R -> pynum) (freqs : list R)
  (argv_len : nat) (args : Args) :
  argv_len <> 1%nat -> arg_source args = [] ->
  main float_fmt freqs argv_len args =
  (PrintLine (invalid_msg EmptyString) :: map PrintLine get_sources, Exit 0%Z).
Proof.
  intros Hn Hs; unfold main; rewrite (proj2 (Nat.eqb_neq _ _) Hn).
  unfold main_after_parse, main_sources; rewrite Hs; reflexivity.
Qed.

Lemma main_without_source_witness :
  main (fun _ _ => PyInt 0) [] 2
    (mkArgs [] true None false false 1 20 None None) =
  (PrintLine (invalid_msg EmptyString) :: map PrintLine get_sources, Exit 0%Z).
Proof. apply main_without_source; [discriminate|reflexivity]. Defined.

(** When the list of sources holds a name that is not in the catalog (up
    to case), [main] prints the error for the first such name and the
    catalog names, and exits with status 0, whatever the options; when
    all names are in the catalog and [--list] is given, it prints the
    catalog names and exits with status 0. *)
Theorem main_checks_sources (float_fmt : nat -> R -> pynum) (freqs : list R)
  (argv_len : nat) (args : Args) (sources : list string) :
  argv_len <> 1%nat -> main_sources args = AOk sources ->
  (forall pre s post, sources = pre ++ s :: post ->
     Forall (fun x => get_source_coeffs x <> None) pre -> get_source_coeffs s = None ->
     main float_fmt freqs argv_len args =
     (PrintLine (invalid_msg s) :: map PrintLine get_sources, Exit 0%Z)) /\
  (Forall (fun x => get_source_coeffs x <> None) sources -> arg_list args = true ->
     main float_fmt freqs argv_len args = (map PrintLine get_sources, Exit 0%Z)).
Proof.
  intros Hn Hs; unfold main; rewrite (proj2 (Nat.eqb_neq _ _) Hn).
  unfold main_after_parse; rewrite Hs; split.
  - intros pre s post -> Hpre Hsn; rewrite (first_invalid_first pre post s Hpre Hsn).
    reflexivity.
  - intros Hall Hl; rewrite (proj2 (first_invalid_known sources) Hall), Hl; reflexivity.
Qed.

Lemma main_checks_sources_witness :
  main (fun _ _ => PyInt 0) [] 2 (mkArgs ["3C48,Sun"%string] false None false false 1 20 None None) =
  (PrintLine (invalid_msg "Sun"%string) :: map PrintLine get_sources, Exit 0%Z).
Proof.
  apply (proj1 (main_checks_sources (fun _ _ => PyInt 0) [] 2
                  (mkArgs ["3C48,Sun"%string] false None false false 1 20 None None)
                  ["3C48"; "Sun"]%string ltac:(discriminate) eq_refl) ["3C48"%string] "Sun"%string []).
  - reflexivity.
  - constructor; [|constructor].
    exact known_3C48.
  - exact unknown_Sun.
Defined.

(** When the first comma-separated item is [all] in any letter case,
    [main] works on the whole catalog, in table order, and drops the
    other items; all of them pass the source check, so with [--list] it
    prints the catalog names and exits with status 0. *)
Theorem main_all_sources (float_fmt : nat -> R -> pynum) (freqs : list R)
  (argv_len : nat) (args : Args) (s t : string) (rest : list string) :
  argv_len <> 1%nat -> py_upper s = [65; 76; 76]%nat ->
  (arg_source args = [s] \/ arg_source args = (s ++ String (chr 44) t)%string :: rest) ->
  main_sources args = AOk get_sources /\
  Forall (fun x => get_source_coeffs x <> None) get_sources /\
  (arg_list args = true ->
   main float_fmt freqs argv_len args = (map PrintLine get_sources, Exit 0%Z)).
Proof.
  intros Hn Hu Hargs.
  assert (Hm : main_sources args = AOk get_sources).
  { unfold main_sources, py_split.
    pose proof (upper_all_no_comma s Hu) as Hc.
    destruct Hargs as [-> | ->].
    - cbn [py_join]; rewrite py_split_aux_noseq by exact Hc; cbn [String.append].
      destruct (list_eq_dec Nat.eq_dec (py_upper s) [65; 76; 76]%nat); [reflexivity|contradiction].
    - destruct rest as [|r rest]; cbn [py_join].
      + rewrite py_split_aux_app by exact Hc; cbn [String.append].
        destruct (list_eq_dec Nat.eq_dec (py_upper s) [65; 76; 76]%nat);
          [reflexivity|contradiction].
      + rewrite <- str_app_assoc; cbn [String.append].
        rewrite py_split_aux_app by exact Hc; cbn [String.append].
        destruct (list_eq_dec Nat.eq_dec (py_upper s) [65; 76; 76]%nat);
          [reflexivity|contradiction]. }
  assert (Hall : Forall (fun x => get_source_coeffs x <> None) get_sources).
  { rewrite get_sources_map; apply Forall_map, Forall_forall; intros e He.
    rewrite (get_source_coeffs_name e He); discriminate. }
  split; [exact Hm|split; [exact Hall|]].
  intros Hl; unfold main; rewrite (proj2 (Nat.eqb_neq _ _) Hn).
  unfold main_after_parse; rewrite Hm, (proj2 (first_invalid_known _) Hall), Hl; reflexivity.
Qed.

Lemma main_all_sources_witness :
  main (fun _ _ => PyInt 0) [] 2 (mkArgs ["All"%string] true None false false 1 20 None None) =
  (map PrintLine get_sources, Exit 0%Z).
Proof.
  apply (proj2 (proj2 (main_all_sources (fun _ _ => PyInt 0) [] 2
                         (mkArgs ["All"%string] true None false false 1 20 None None)
                         "All"%string EmptyString [] ltac:(discriminate) eq_refl (or_introl eq_refl)))).
  reflexivity.
Defined.

(** With [--flux f] (and no [--list]) on catalog sources, [main] prints one
    line per source, in order, with the positive flux [get_jy] gives at
    [f/1000] GHz, and exits with status 0 when [f] lies between 10 and
    100000 MHz; when [f <= 0] it prints nothing and raises the ValueError
    of [math.log]. *)
Theorem main_flux (float_fmt : nat -> R -> pynum) (freqs : list R)
  (argv_len : nat) (args : Args) (sources : list string) (f : R) :
  argv_len <> 1%nat -> main_sources args = AOk sources ->
  Forall (fun x => get_source_coeffs x <> None) sources ->
  arg_list args = false -> arg_flux args = Some f ->
  (10 <= f <= 100000 -> exists fluxes,
     Forall2 (fun s v => get_jy s (f / 1000) = Ok (Some v) /\ 0 < v) sources fluxes /\
     main float_fmt freqs argv_len args =
     (map (fun sv => PrintFlux (fst sv) f (snd sv)) (combine sources fluxes), Exit 0%Z)) /\
  (f <= 0 -> main float_fmt freqs argv_len args = ([], Raised (PyErr ValueError))).
Proof.
  intros Hn Hs Hall Hl Hf; unfold main; rewrite (proj2 (Nat.eqb_neq _ _) Hn).
  unfold main_after_parse; rewrite Hs, (proj2 (first_invalid_known _) Hall), Hl, Hf.
  split.
  - intros Hpos; destruct (flux_lines_known sources f Hall Hpos) as [fl [H2 Hfl]].
    exists fl; split; [exact H2|rewrite Hfl; reflexivity].
  - intros Hneg; destruct sources as [|s sources];
      [exfalso; exact (main_sources_nonempty args [] Hs eq_refl)|].
    inversion Hall; subst.
    rewrite flux_lines_nonpos by assumption; reflexivity.
Qed.

Lemma main_flux_witness :
  main (fun _ _ => PyInt 0) [] 2 (mkArgs ["3C48"%string] false (Some 0) false false 1 20 None None) =
  ([], Raised (PyErr ValueError)).
Proof.
  assert (Hk : Forall (fun x => get_source_coeffs x <> None) ["3C48"%string])
    by (constructor; [exact known_3C48|constructor]).
  apply (proj2 (main_flux (fun _ _ => PyInt 0) [] 2
                  (mkArgs ["3C48"%string] false (Some 0) false false 1 20 None None)
                  ["3C48"%string] 0 ltac:(discriminate) eq_refl Hk eq_refl eq_refl)); lra.
Defined.

(** Without [--list] and [--flux], [main] on catalog sources never
    displays a chart, with or without [--chart]: it prints nothing and
    ends in an exception; when the frequencies of [_frange(minf, maxf,
    0.01)] lie between 10 MHz and 100 GHz that exception is the TypeError
    of [qc.Page('Chart Test', 'Flux Densities')], since [Page.__init__]
    takes one argument. *)
Theorem main_chart_raises (float_fmt : nat -> R -> pynum) (freqs : list R)
  (argv_len : nat) (args : Args) (sources : list string) :
  argv_len <> 1%nat -> main_sources args = AOk sources ->
  Forall (fun x => get_source_coeffs x <> None) sources ->
  arg_list args = false -> arg_flux args = None ->
  exists e, main float_fmt freqs argv_len args = ([], Raised e) /\
    (Forall (fun f => 0.01 <= f <= 100) freqs -> e = TypeError).
Proof.
  intros Hn Hs Hall Hl Hf; unfold main; rewrite (proj2 (Nat.eqb_neq _ _) Hn).
  unfold main_after_parse; rewrite Hs, (proj2 (first_invalid_known _) Hall), Hl, Hf.
  destruct (create_chart float_fmt freqs sources (arg_linear args)) as [chart|e] eqn:E.
  - exists TypeError; split; reflexivity.
  - exists e; split; [reflexivity|].
    intros Hfr.
    destruct (create_chart_ok_known float_fmt sources freqs (arg_linear args)
                Hfr Hall) as [c Hc].
    congruence.
Qed.

Lemma main_chart_raises_witness :
  exists e, main (fun _ _ => PyInt 0) [] 2
              (mkArgs ["3C48"%string] false None true false 2 1 None None) = ([], Raised e) /\
    (Forall (fun f => 0.01 <= f <= 100) [] -> e = TypeError).
Proof.
  apply (main_chart_raises (fun _ _ => PyInt 0) [] 2
           (mkArgs ["3C48"%string] false None true false 2 1 None None)
           ["3C48"%string] ltac:(discriminate) eq_refl); [|reflexivity|reflexivity].
  constructor; [|constructor].
  exact known_3C48.
Defined.

End FluxAppExtras.

(** * Properties of quick_chart.py beyond the specification *)
Module PageFacts.
Import QuickChart DumpFacts ChartFacts.

Lemma charts_html_ok (idx : nat) (cs : list Chart) :
  Forall (fun c => dict_has (s2l "series") (ch_chart c) = true) cs ->
  exists h, charts_html idx cs = Ok h.
Proof.
  revert idx; induction cs as [|c cs IH]; intros idx H; [eexists; reflexivity|].
  inversion H as [|? ? Hc Hcs]; subst.
  cbn [charts_html]; unfold get_series_js_var_statements, to_json_string; rewrite Hc.
  cbn [py_bind]; destruct (IH (S idx) Hcs) as [h Hh]; rewrite Hh; eexists; reflexivity.
Qed.

Lemma charts_html_app (idx : nat) (l1 l2 : list Chart) :
  charts_html idx (l1 ++ l2) =
  (b1 <- charts_html idx l1 ;; b2 <- charts_html (idx + length l1) l2 ;; Ok (b1 ++ b2)).
Proof.
  revert idx; induction l1 as [|c l1 IH]; intros idx.
  - cbn [app charts_html length py_bind]; rewrite Nat.add_0_r.
    destruct (charts_html idx l2); reflexivity.
  - cbn [app charts_html length]; rewrite IH.
    destruct (get_series_js_var_statements c); cbn [py_bind]; [|reflexivity].
    destruct (to_json_string c); cbn [py_bind]; [|reflexivity].
    destruct (charts_html (S idx) l1); cbn [py_bind]; [|reflexivity].
    replace (idx + S (length l1))%nat with (S idx + length l1)%nat by lia.
    destruct (charts_html (S idx + length l1) l2); cbn [py_bind]; [|reflexivity].
    rewrite <- !app_assoc; reflexivity.
Qed.

Lemma reachable_sections_aux (c : Chart) :
  reachable c ->
  forall k, In k [s2l "chart"; s2l "credits"; s2l "title"; s2l "xAxis"; s2l "yAxis"] ->
  exists v, dict_get k (ch_chart c) = Some v.
Proof.
  induction 1 as [| c w Hc IH | c h Hc IH | c t z Hc IH | c t h Hc IH | c t Hc IH
                  | c t Hc IH | c t x Hc IH | c t y Hc IH | c d Hc IH | c d Hc IH
                  | c s Hc IH]; intros k Hk.
  1: simpl in Hk; repeat (destruct Hk as [<-|Hk]; [eexists; reflexivity|]); contradiction.
  1-2: exact (IH k Hk).
  all: specialize (IH k Hk).
  all: unfold set_chart, set_credits, set_title, set_subtitle, set_xaxis, set_yaxis,
         set_tooltip, set_plot_options, add_series, with_dict;
       cbn [ch_chart]; setter_cases; cbn [ch_chart].
  all: repeat match goal with
         | |- exists v, dict_get ?k (dict_set ?K _ _) = Some v =>
             let E := fresh "E" in
             destruct (text_eqb k K) eqn:E;
             [apply text_eqb_true in E; subst k; eexists; apply dict_get_set_same
             |rewrite (dict_get_set_other k K _ _ E)]
         | |- exists v, dict_get ?k (dict_pop ?K _) = Some v =>
             let E := fresh "E" in
             destruct (text_eqb k K) eqn:E;
             [apply text_eqb_true in E; subst k; simpl in Hk; intuition discriminate
             |rewrite (dict_get_pop_other k K _ E)]
         end.
  all: exact IH.
Qed.

Lemma dict_set_set (k : text) (v1 v2 : json) (d : dict) :
  dict_set k v2 (dict_set k v1 d) = dict_set k v2 d.
Proof.
  induction d as [|[k0 v0] d IH]; simpl.
  - rewrite text_eqb_refl; reflexivity.
  - destruct (text_eqb k k0) eqn:E; simpl; rewrite E; [reflexivity|rewrite IH; reflexivity].
Qed.

Lemma dict_pop_set (k : text) (v : json) (d : dict) :
  dict_pop k (dict_set k v d) = dict_pop k d.
Proof.
  induction d as [|[k0 v0] d IH]; simpl.
  - rewrite text_eqb_refl; reflexivity.
  - destruct (text_eqb k k0) eqn:E; simpl; rewrite E; [reflexivity|rewrite IH; reflexivity].
Qed.

Lemma dict_pop_absent (k : text) (d : dict) : ~ In k (map fst d) -> dict_pop k d = d.
Proof.
  induction d as [|[k0 v0] d IH]; simpl; intros Hn; [reflexivity|].
  destruct (text_eqb k k0) eqn:E.
  - apply text_eqb_true in E; subst; tauto.
  - rewrite IH by tauto; reflexivity.
Qed.

Lemma dict_pop_pop (k : text) (d : dict) :
  NoDup (map fst d) -> dict_pop k (dict_pop k d) = dict_pop k d.
Proof.
  induction d as [|[k0 v0] d IH]; simpl; intros Hd; [reflexivity|].
  inversion Hd as [|? ? Hn Hd']; subst.
  destruct (text_eqb k k0) eqn:E.
  - apply text_eqb_true in E; subst; apply dict_pop_absent, Hn.
  - simpl; rewrite E, IH by exact Hd'; reflexivity.
Qed.

Lemma split_lines_aux_block (cur s : text) :
  concat (map (fun line => _indent 8 line ++ [nlc]) (split_lines_aux cur s)) =
  _indent 8 (rev cur ++
             flat_map (fun ch => if ascii_dec ch nlc then nlc :: repeat spc 8 else [ch]) s)
  ++ [nlc].
Proof.
  revert cur; induction s as [|ch s IH]; intros cur.
  - simpl; rewrite !app_nil_r; reflexivity.
  - cbn [split_lines_aux flat_map]; destruct (ascii_dec ch nlc) as [->|Hne].
    + cbn [map concat]; rewrite IH; unfold _indent; cbn [rev app].
      rewrite <- !app_assoc; reflexivity.
    + rewrite IH; cbn [rev]; rewrite <- app_assoc; reflexivity.
Qed.

End PageFacts.

Module PageExtras.
Import QuickChart JsonText DumpFacts ChartFacts PageFacts.

(** For a page whose charts are built through the public methods,
    [to_html] returns the HTML text when every chart has at least one
    series, and raises the no-series exception when one of them has none. *)
Theorem to_html_needs_series (p : Page) :
  Forall reachable (pg_charts p) ->
  (Forall (fun c => ch_series_instances c <> []) (pg_charts p) ->
   exists html, to_html p = Ok html) /\
  (Exists (fun c => ch_series_instances c = []) (pg_charts p) ->
   to_html p = Raise (Exception no_series_msg)).
Proof.
  intros Hr; split.
  - intros Hne; unfold to_html.
    destruct (charts_html_ok 0 (pg_charts p)) as [h Hh].
    { rewrite Forall_forall in *; intros c Hc; rewrite (reachable_has_series c (Hr c Hc)).
      specialize (Hne c Hc); destruct (ch_series_instances c); [contradiction|reflexivity]. }
    rewrite Hh; eexists; reflexivity.
  - intros Hex; apply Exists_exists in Hex; destruct Hex as [c [Hin He]].
    unfold to_html; rewrite (charts_html_raises 0 _ c Hin); [reflexivity|].
    rewrite (reachable_has_series c (proj1 (Forall_forall _ _) Hr c Hin)), He; reflexivity.
Qed.

Lemma to_html_needs_series_witness :
  exists html, to_html (add_chart (new_page (Some (s2l "Flux")))
                          (add_series new_chart (new_series (s2l "flux") [] JNull))) = Ok html.
Proof.
  apply to_html_needs_series.
  - constructor; [apply reach_add, reach_new|constructor].
  - constructor; [discriminate|constructor].
Defined.

(** Adding a chart to a page appends its block after the blocks of the
    charts already there, numbered with the next container index
    (the number of charts already on the page). *)
Theorem to_html_add_chart (p : Page) (c : Chart) :
  to_html (add_chart p c) =
  (body <- charts_html 0 (pg_charts p) ;;
   block <- charts_html (length (pg_charts p)) [c] ;;
   Ok (_get_header_text p ++ body ++ block ++ _get_footer_text)).
Proof.
  unfold to_html, add_chart; cbn [pg_charts].
  rewrite charts_html_app; cbn [Nat.add].
  destruct (charts_html 0 (pg_charts p)); cbn [py_bind]; [|reflexivity].
  destruct (charts_html (length (pg_charts p)) [c]); cbn [py_bind]; [|reflexivity].
  rewrite <- app_assoc; reflexivity.
Qed.

(** On a chart built through the public methods, each key of the
    configuration occurs at most once, and the [chart], [credits],
    [title], [xAxis] and [yAxis] sections are always present: no setter
    removes them. *)
Theorem reachable_sections (c : Chart) :
  reachable c ->
  NoDup (map fst (ch_chart c)) /\
  forall k, In k [s2l "chart"; s2l "credits"; s2l "title"; s2l "xAxis"; s2l "yAxis"] ->
    exists v, dict_get k (ch_chart c) = Some v.
Proof.
  intros Hc; split; [exact (reachable_nodup c Hc)|exact (reachable_sections_aux c Hc)].
Qed.

Lemma reachable_sections_witness :
  exists v, dict_get (s2l "chart")
              (ch_chart (set_plot_options (set_tooltip (set_chart new_chart JNull JNull) JNull) JNull))
            = Some v.
Proof.
  apply (reachable_sections _
           (reach_plot_options _ _ (reach_tooltip _ _ (reach_chart _ _ _ reach_new)))).
  left; reflexivity.
Defined.

(** On a chart built through the public methods, a second call of a
    setter replaces the first one's effect in place: the chart is the same
    as with the second call alone. For [set_subtitle], [set_tooltip],
    [set_plot_options] and [set_chart] this holds when the first value is
    not [None] or the second one is [None]. *)
Theorem setters_last_call_wins (c : Chart) :
  reachable c ->
  (forall a b, set_title (set_title c a) b = set_title c b) /\
  (forall t1 h1 t2 h2, set_credits (set_credits c t1 h1) t2 h2 = set_credits c t2 h2) /\
  (forall a1 x1 a2 x2, set_xaxis (set_xaxis c a1 x1) a2 x2 = set_xaxis c a2 x2) /\
  (forall a1 y1 a2 y2, set_yaxis (set_yaxis c a1 y1) a2 y2 = set_yaxis c a2 y2) /\
  (forall w1 w2, set_width (set_width c w1) w2 = set_width c w2) /\
  (forall h1 h2, set_height (set_height c h1) h2 = set_height c h2) /\
  (forall a b, a <> JNull \/ b = JNull -> set_subtitle (set_subtitle c a) b = set_subtitle c b) /\
  (forall a b, a <> JNull \/ b = JNull -> set_tooltip (set_tooltip c a) b = set_tooltip c b) /\
  (forall a b, a <> JNull \/ b = JNull ->
     set_plot_options (set_plot_options c a) b = set_plot_options c b) /\
  (forall t1 z1 t2 z2, t1 <> JNull \/ t2 = JNull ->
     set_chart (set_chart c t1 z1) t2 z2 = set_chart c t2 z2).
Proof.
  intros Hc; pose proof (reachable_nodup c Hc) as Hd.
  repeat split; intros;
    unfold set_title, set_credits, set_xaxis, set_yaxis, set_width, set_height,
      set_subtitle, set_tooltip, set_plot_options, set_chart, with_dict in *;
    cbn [ch_chart ch_series_instances ch_width ch_height] in *; try reflexivity.
  all: repeat match goal with
         | H : _ \/ _ |- _ => destruct H as [H|H]; [|subst]
         end.
  all: setter_cases; cbn [ch_chart ch_series_instances ch_width ch_height];
       try congruence;
       rewrite ?dict_set_set, ?dict_pop_set, ?dict_pop_pop by exact Hd; reflexivity.
Qed.

Lemma setters_last_call_wins_witness :
  set_subtitle (set_subtitle new_chart (JStr (s2l "a"))) JNull = set_subtitle new_chart JNull.
Proof.
  apply (proj1 (proj2 (proj2 (proj2 (proj2 (proj2 (proj2 (setters_last_call_wins new_chart
           reach_new)))))))).
  right; reflexivity.
Defined.

(** The JavaScript variable name of a series holds no space, ends in
    [_data] and never begins with a digit. *)
Theorem javascript_var_name_shape (s : Series) :
  ~ In spc (javascript_var_name s) /\
  (exists pre, javascript_var_name s = pre ++ s2l "_data") /\
  (exists c rest, javascript_var_name s = c :: rest /\ py_isdigit c = false).
Proof.
  assert (Hns : ~ In spc (replace_space (sr_name s) ++ s2l "_data")).
  { intros H; apply in_app_or in H; destruct H as [H|H].
    - unfold replace_space in H; apply in_map_iff in H; destruct H as [x [Hx _]].
      destruct (ascii_dec x spc) as [_|Hne]; [discriminate Hx|contradiction].
    - simpl in H; intuition discriminate. }
  unfold javascript_var_name.
  destruct (replace_space (sr_name s) ++ s2l "_data") as [|c rest] eqn:Ev.
  - exfalso; destruct (replace_space (sr_name s)); discriminate Ev.
  - destruct (py_isdigit c) eqn:D.
    + split; [intros [H|H]; [discriminate H|exact (Hns H)]|].
      split; [exists (chr 95 :: replace_space (sr_name s)); rewrite <- Ev; reflexivity|].
      exists (chr 95), (c :: rest); split; reflexivity.
    + split; [exact Hns|].
      split; [exists (replace_space (sr_name s)); symmetry; exact Ev|].
      exists c, rest; split; [reflexivity|exact D].
Qed.

(** The HTML block of one chart whose var statements and JSON text are
    available: the container div, the opening of the script, one line per
    var statement indented by 6 spaces, the [highcharts] call, then the
    chart's JSON text unchanged except that 8 spaces precede its first
    line and follow each of its newlines, and the closing lines. *)
Theorem chart_block (idx : nat) (c : Chart) (var_lines : list text) (json_string : text) :
  get_series_js_var_statements c = Ok var_lines -> to_json_string c = Ok json_string ->
  charts_html idx [c] =
  Ok (container_div idx c
      ++ _indent 2 (lit "<script>|")
      ++ _indent 4 (lit "$(function () {|")
      ++ concat (map (fun var_line => _indent 6 var_line ++ [nlc]) var_lines)
      ++ _indent 6 (lit "$(`#container" ++ py_int_repr (Z.of_nat idx) ++ lit "`).highcharts(|")
      ++ _indent 8 (flat_map (fun ch => if ascii_dec ch nlc then nlc :: repeat spc 8 else [ch])
                             json_string) ++ [nlc]
      ++ _indent 4 (lit ");|")
      ++ _indent 4 (lit "});|")
      ++ _indent 2 (lit "</script>|")).
Proof.
  intros Hv Hj; cbn [charts_html]; rewrite Hv, Hj; cbn [py_bind].
  unfold split_lines; rewrite split_lines_aux_block; cbn [rev app].
  rewrite !app_nil_r, <- !app_assoc; reflexivity.
Qed.

Lemma chart_block_witness :
  exists h, charts_html 0 [add_series new_chart (new_series (s2l "flux") [] JNull)] = Ok h.
Proof.
  eexists; apply (chart_block 0 _ [s2l "var flux_data = [];"]); vm_compute; reflexivity.
Defined.

End PageExtras.
